(** * ViewIntersection: view-dependent tile selection

    A shallow embedding of [@here/harp-mapview/lib/ViewIntersection.ts]:
    the epsilon GeoBox test, the root-tile seeding, [updateFrustum] and the
    work-list traversal of [compute], followed by the properties the
    specification states about them.

    Conventions of the embedding.
    - A JavaScript [number] holding a coordinate, a height or a distance is the
      rational ([Q]) that the double denotes; the tile area, which the code
      sets to [Infinity] for roots, is a rational extended with [Infinity].
    - The intersection test adds and subtracts an epsilon of 1e-7 to
      coordinates of up to a few hundred degrees, which is where the rounding
      of doubles decides the outcome: the sums and the product of [getGeoBox]
      and [geoBoxesIntersect] are rounded to binary64 ([roundBinary64]).
      The target area, which is compared with the areas 1 and [Infinity]
      only, is computed exactly.
    - Offsets and zoom levels are integers ([Z]); the fields of a [TileKey]
      are naturals.
    - [Map] objects are finite maps ([gmap]); the iteration order of a [Map]
      plays no role in [compute].
    - The [while] loop of [compute] need not terminate (a data source may ask
      for subdivision at every level), so it is run with fuel.
    - The object's fields are threaded explicitly: every method takes the
      receiver [this] and returns the updated receiver. *)

From Stdlib Require Import ZArith QArith Qround Qpower Lia Lqa.
From stdpp Require Import base tactics option list gmap.

Open Scope Z_scope.

(** ** Numbers *)

Inductive number : Type :=
  | Num (q : Q)
  | Infinity.

Definition Qltb (x y : Q) : bool := negb (Qle_bool y x).
Definition Qleb (x y : Q) : bool := Qle_bool x y.
Definition Qgeb (x y : Q) : bool := Qle_bool y x.

(** [a < b] on areas. *)
Definition numLt (a b : number) : bool :=
  match a, b with
  | Num x, Num y => Qltb x y
  | Num _, Infinity => true
  | Infinity, _ => false
  end.

(** *** Rounding to binary64

    A sum or a product of two doubles is the double nearest to the exact
    result, ties going to the even significand; so is the value of a decimal
    literal.  [binade q] is the exponent of the leading bit of a positive
    [q]; the significand keeps 53 bits.  The exponent is not bounded: a sum
    of two doubles that does not overflow is never rounded in the subnormal
    range, and neither are the literal [1E-7] and the product of 360 and an
    integer. *)
Definition roundHalfEven (t : Q) : Z :=
  let f := Qfloor t in
  match Qcompare (t - inject_Z f) (1 # 2) with
  | Lt => f
  | Gt => f + 1
  | Eq => if Z.even f then f else f + 1
  end.

Definition binade (q : Q) : Z :=
  let l := Z.log2 (Qnum q) - Z.log2 (Zpos (Qden q)) in
  if Qle_bool (2 ^ l)%Q q then l else l - 1.

Definition roundPositive (q : Q) : Q :=
  let e := binade q - 52 in
  (inject_Z (roundHalfEven (q * 2 ^ (- e))) * 2 ^ e)%Q.

Definition roundBinary64 (q : Q) : Q :=
  match Qnum q with
  | Z0 => 0%Q
  | Zpos _ => roundPositive q
  | Zneg _ => (- roundPositive (- q))%Q
  end.

(** Half the distance between 1 and the next double, [2^-53]. *)
Definition unitRoundoff : Q := (1 # 9007199254740992)%Q.

(** The doubles: a significand of at most 53 bits times a power of two. *)
Definition isBinary64 (q : Q) : Prop :=
  ∃ m e : Z, Z.abs m < 2 ^ 53 ∧ (q == inject_Z m * 2 ^ e)%Q.

(** ** Collaborator types (harp-geoutils, three.js, MapView, DataSource)

    The declarations of these types are not among the sources; each is
    modelled by the members that ViewIntersection.ts uses. *)

(** Modelled from the spec: a [TileKey] is a hierarchical address (level,
    row, column). *)
Record TileKey : Type := mkTileKey { row : nat; column : nat; level : nat }.

#[global] Instance TileKey_eq_dec : EqDecision TileKey.
Proof. solve_decision. Defined.

(** [TileKey.fromRowColumnLevel(row, column, level)] *)
Definition fromRowColumnLevel (r c l : nat) : TileKey := mkTileKey r c l.

(** [new GeoCoordinates(latitude, longitude, altitude?)] *)
Record GeoCoordinates : Type := mkGeoCoordinates
  { latitude : Q; longitude : Q; altitude : option Q }.

(** Modelled from the spec: a [GeoBox] is an axis-aligned rectangle given by
    its south-west and north-east corners, [new GeoBox(southWest, northEast)];
    west and east are the longitudes of the corners, south and north their
    latitudes. *)
Record GeoBox : Type := mkGeoBox
  { southWest : GeoCoordinates; northEast : GeoCoordinates }.

Definition west (g : GeoBox) : Q := longitude (southWest g).
Definition east (g : GeoBox) : Q := longitude (northEast g).
Definition south (g : GeoBox) : Q := latitude (southWest g).
Definition north (g : GeoBox) : Q := latitude (northEast g).

(** The interface of a tiling scheme.  [ident] stands for the identity of the
    scheme object, which [compute] compares with [===]. *)
Module TilingScheme.
Record t : Type := mk
  { ident : nat;
    getGeoBox : TileKey -> GeoBox;
    getSubTileKeys : TileKey -> list TileKey }.
End TilingScheme.

(** [zoomLevels[i]] is [undefined] past the end of the array, hence the
    [option]. *)
Module DataSource.
Record t : Type := mk
  { shouldSubdivide : option Z -> TileKey -> bool }.
End DataSource.

Module ElevationRangeSource.
Record t : Type := mk { getTilingScheme : TilingScheme.t }.
End ElevationRangeSource.

Inductive ProjectionType : Type := Planar | Spherical.

Definition ProjectionType_eqb (a b : ProjectionType) : bool :=
  match a, b with
  | Planar, Planar | Spherical, Spherical => true
  | _, _ => false
  end.

(** What [compute] and [updateFrustum] read from [this.mapView]. *)
Module MapView.
Record t : Type := mk
  { projectionType : ProjectionType;
    geoBox : option GeoBox;
    viewportHeight : Q }.
End MapView.

(** A 4x4 matrix as a list of rows, with the usual product
    ([THREE.Matrix4.multiplyMatrices]). *)
Definition Matrix4 : Type := list (list Q).

Definition identity4 : Matrix4 :=
  [[1; 0; 0; 0]; [0; 1; 0; 0]; [0; 0; 1; 0]; [0; 0; 0; 1]]%Q.

Definition dotQ (u v : list Q) : Q :=
  foldr Qplus 0%Q (zip_with Qmult u v).

Definition columnsOf (m : Matrix4) : list (list Q) :=
  map (fun j => map (fun r => nth j r 0%Q) m) (seq 0 4).

Definition multiplyMatrices (a b : Matrix4) : Matrix4 :=
  map (fun r => map (dotQ r) (columnsOf b)) a.

Module Camera.
Record t : Type := mk
  { projectionMatrix : Matrix4;
    matrixWorldInverse : Matrix4;
    position : Q * Q * Q }.
End Camera.

(** Modelled from the spec: the [TileKeyEntry] class, which lives in
    FrustumIntersection.ts and is not among the sources.  The spec gives its
    fields (tile key, offset, area, distance, elevation range); trailing
    constructor arguments that a call leaves out are zero, which is what the
    spec's zero elevation range of a root entry needs. *)
Record TileKeyEntry : Type := mkTileKeyEntry
  { tileKey : TileKey;
    area : number;
    offset : Z;
    minElevation : Q;
    maxElevation : Q;
    distance : Q }.

Definition newTileKeyEntry (k : TileKey) (a : number) (off : Z)
    (minE maxE dist : option Q) : TileKeyEntry :=
  mkTileKeyEntry k a off (default 0%Q minE) (default 0%Q maxE) (default 0%Q dist).

(** [TileOffsetUtils.getKeyForTileKeyAndOffset] is imported from Utils.ts,
    which is not among the sources: the development is parametric in it. *)
Class TileOffsetUtils : Type :=
  { getKeyForTileKeyAndOffset : TileKey -> Z -> Z }.

(** ** Module-level constants and functions *)

(** The double that the literal [1E-7] denotes. *)
Definition MaxError : Q := roundBinary64 (1 # 10000000).

(** [c.longitude += d] *)
Definition shiftLongitude (c : GeoCoordinates) (d : Q) : GeoCoordinates :=
  mkGeoCoordinates (latitude c) (roundBinary64 (longitude c + d)) (altitude c).

Definition getGeoBox (tilingScheme : TilingScheme.t) (childTileKey : TileKey)
    (offset : Z) : GeoBox :=
  let geoBox := TilingScheme.getGeoBox tilingScheme childTileKey in
  let longitudeOffset := roundBinary64 (360 * inject_Z offset) in
  mkGeoBox (shiftLongitude (southWest geoBox) longitudeOffset)
           (shiftLongitude (northEast geoBox) longitudeOffset).

Definition geoBoxesIntersect (geoBoxA geoBoxB : GeoBox) : bool :=
  Qltb (west geoBoxA) (roundBinary64 (east geoBoxB - MaxError)) &&
  Qgeb (east geoBoxA) (roundBinary64 (west geoBoxB + MaxError)) &&
  Qleb (south geoBoxA) (roundBinary64 (north geoBoxB - MaxError)) &&
  Qgeb (north geoBoxA) (roundBinary64 (south geoBoxB + MaxError)).

(** ** The ViewIntersection object *)

Record ViewIntersection : Type := mkViewIntersection
  { m_tileWrappingEnabled : bool;
    m_enableMixedLod : bool;
    m_viewProjectionMatrix : Matrix4;
    m_rootTileKeys : list TileKeyEntry;
    m_tileKeyEntries : gmap Z (gmap Z TileKeyEntry);
    m_worldBox : option GeoBox }.

Record IntersectionResult : Type := mkIntersectionResult
  { tileKeyEntries : gmap Z (gmap Z TileKeyEntry);
    calculationFinal : bool }.

(** [new ViewIntersection(camera, mapView, tileWrappingEnabled, enableMixedLod)] *)
Definition newViewIntersection (tileWrappingEnabled enableMixedLod : bool)
    : ViewIntersection :=
  mkViewIntersection tileWrappingEnabled enableMixedLod identity4 [] ∅ None.

Definition rootTileKey : TileKey := fromRowColumnLevel 0 0 0.

Definition computeRequiredInitialRootTileKeys (this : ViewIntersection)
    (mapView : MapView.t) (worldCenter : Q * Q * Q) : ViewIntersection :=
  let tileWrappingEnabled :=
    ProjectionType_eqb (MapView.projectionType mapView) Planar in
  let roots :=
    if negb tileWrappingEnabled || negb (m_tileWrappingEnabled this)
    then [newTileKeyEntry rootTileKey Infinity 0 (Some 0%Q) None None]
    else [newTileKeyEntry rootTileKey Infinity 0 (Some 0%Q) (Some 0%Q) None] in
  mkViewIntersection (m_tileWrappingEnabled this) (m_enableMixedLod this)
    (m_viewProjectionMatrix this) roots (m_tileKeyEntries this)
    (m_worldBox this).

Definition zeroGeoBox : GeoBox :=
  mkGeoBox (mkGeoCoordinates 0 0 (Some 0%Q)) (mkGeoCoordinates 0 0 (Some 0%Q)).

Definition updateFrustum (this : ViewIntersection) (mapView : MapView.t)
    (camera : Camera.t) (projectionMatrixOverride : option Matrix4)
    : ViewIntersection :=
  let m :=
    multiplyMatrices
      (match projectionMatrixOverride with
       | Some o => o
       | None => Camera.projectionMatrix camera
       end)
      (Camera.matrixWorldInverse camera) in
  let worldBox :=
    match MapView.geoBox mapView with
    | None => zeroGeoBox
    | Some g => g
    end in
  computeRequiredInitialRootTileKeys
    (mkViewIntersection (m_tileWrappingEnabled this) (m_enableMixedLod this)
       m (m_rootTileKeys this) (m_tileKeyEntries this) (Some worldBox))
    mapView (Camera.position camera).

(** ** [compute] *)

(** [new Set(zoomLevels)]: the distinct zoom levels, in order of first
    occurrence. *)
Fixpoint newSet (l : list Z) : list Z :=
  match l with
  | [] => []
  | z :: r => z :: filter (fun y => y ≠ z) (newSet r)
  end.

(** [dataSources.some((ds, i) => ds.shouldSubdivide(zoomLevels[i], tileKey))],
    with [i] the index of the first data source of the list. *)
Fixpoint someShouldSubdivide (zoomLevels : list Z) (tileKey : TileKey)
    (i : nat) (dataSources : list DataSource.t) : bool :=
  match dataSources with
  | [] => false
  | ds :: rest =>
      DataSource.shouldSubdivide ds (zoomLevels !! i) tileKey
      || someShouldSubdivide zoomLevels tileKey (S i) rest
  end.

(** [for (const zoomLevel of uniqueZoomLevels) { if (skip) continue;
    update(this.m_tileKeyEntries.get(zoomLevel)!) }].  Every zoom level of the
    set has its map from the start of [compute], so the non-null assertion
    never fails. *)
Definition forEachZoomLevel (skip : Z -> bool)
    (update : gmap Z TileKeyEntry -> gmap Z TileKeyEntry)
    (uniqueZoomLevels : list Z) (entries : gmap Z (gmap Z TileKeyEntry))
    : gmap Z (gmap Z TileKeyEntry) :=
  foldl (fun m zoomLevel => if skip zoomLevel then m else alter update zoomLevel m)
        entries uniqueZoomLevels.

(** The state of the traversal: the per-zoom maps and the work list.  The
    head of the list is the end of the JavaScript array, where [push] and
    [pop] operate. *)
Record LoopState : Type := mkLoopState
  { entries : gmap Z (gmap Z TileKeyEntry);
    workList : list TileKeyEntry }.

(** The outcome of a call: a result and the receiver after the call, the
    receiver after a failed [assert], or no answer within the fuel.

    Modelled from the spec: [assert] is imported from harp-utils, which is
    not among the sources; a call whose condition is false does not return
    (the spec calls a zero viewport height a precondition violation guarded
    by an assertion). *)
Inductive outcome (A : Type) : Type :=
  | Done (a : A) (this : ViewIntersection)
  | AssertionFailed (this : ViewIntersection)
  | OutOfFuel.
Arguments Done {A} a this.
Arguments AssertionFailed {A} this.
Arguments OutOfFuel {A}.

Section Traversal.
Context {Utils : TileOffsetUtils}.
Variable worldBox : GeoBox.
Variable tilingScheme : TilingScheme.t.
Variable zoomLevels : list Z.
Variable dataSources : list DataSource.t.
Variable uniqueZoomLevels : list Z.
Variable enableMixedLod : bool.
Variable targetTileArea : number.

(** Lines 228-243: the entry of a child that passed the intersection test. *)
Definition subTileEntry (childTileKey : TileKey) (offset : Z) : TileKeyEntry :=
  let geoBox := getGeoBox tilingScheme childTileKey offset in
  let area := Num 1 in
  let distance := 1%Q in
  newTileKeyEntry childTileKey area offset
    (altitude (southWest geoBox)) (altitude (northEast geoBox)) (Some distance).

(** Lines 221-256: one round of the loop over the sub tile keys. *)
Definition visitChild (offset : Z) (s : LoopState) (childTileKey : TileKey)
    : LoopState :=
  let tileKeyAndOffset := getKeyForTileKeyAndOffset childTileKey offset in
  let geoBox := getGeoBox tilingScheme childTileKey offset in
  if negb (geoBoxesIntersect worldBox geoBox) then s
  else
    let sub := subTileEntry childTileKey offset in
    mkLoopState
      (forEachZoomLevel (fun zoomLevel => Z.of_nat (level (tileKey sub)) >? zoomLevel)
         (insert tileKeyAndOffset sub) uniqueZoomLevels (entries s))
      (sub :: workList s).

(** Lines 194-204: does the popped entry descend? *)
Definition descends (tileEntry : TileKeyEntry) : bool :=
  someShouldSubdivide zoomLevels (tileKey tileEntry) 0 dataSources
  && negb (enableMixedLod && numLt (area tileEntry) targetTileArea).

(** Lines 186-256: one round of the [while] loop, for a non-empty work
    list. *)
Definition loopBody (s : LoopState) : LoopState :=
  match workList s with
  | [] => s
  | tileEntry :: rest =>
      let tileKey := tileKey tileEntry in
      let subdivide := someShouldSubdivide zoomLevels tileKey 0 dataSources in
      if negb subdivide then mkLoopState (entries s) rest
      else if enableMixedLod && numLt (area tileEntry) targetTileArea
      then mkLoopState (entries s) rest
      else
        let parentTileKey :=
          getKeyForTileKeyAndOffset tileKey (offset tileEntry) in
        let deleted :=
          forEachZoomLevel (fun zoomLevel => Z.of_nat (level tileKey) >=? zoomLevel)
            (delete parentTileKey) uniqueZoomLevels (entries s) in
        foldl (visitChild (offset tileEntry)) (mkLoopState deleted rest)
              (TilingScheme.getSubTileKeys tilingScheme tileKey)
  end.

(** Lines 185-257. *)
Fixpoint whileLoop (fuel : nat) (s : LoopState) : option LoopState :=
  match workList s with
  | [] => Some s
  | _ :: _ =>
      match fuel with
      | O => None
      | S fuel' => whileLoop fuel' (loopBody s)
      end
  end.

(** The states the loop goes through from [s]. *)
Inductive loopReaches (s : LoopState) : LoopState -> Prop :=
  | loopReaches_here : loopReaches s s
  | loopReaches_round s' :
      loopReaches s s' -> workList s' ≠ [] -> loopReaches s (loopBody s').
End Traversal.

Section Compute.
Context {Utils : TileOffsetUtils}.

(** Lines 163-166. *)
Definition createMaps (uniqueZoomLevels : list Z) : gmap Z (gmap Z TileKeyEntry) :=
  foldl (fun m zoomLevel => <[zoomLevel := ∅]> m) ∅ uniqueZoomLevels.

(** Lines 168-174. *)
Definition rootMapEntry (item : TileKeyEntry) : TileKeyEntry :=
  newTileKeyEntry (tileKey item) Infinity (offset item)
    (Some (minElevation item)) (Some (maxElevation item)) None.

(** Lines 167-182. *)
Definition seedRoots (uniqueZoomLevels : list Z) (roots : list TileKeyEntry)
    (m : gmap Z (gmap Z TileKeyEntry)) : gmap Z (gmap Z TileKeyEntry) :=
  foldl (fun m item =>
           forEachZoomLevel (fun _ => false)
             (insert (getKeyForTileKeyAndOffset (tileKey item) (offset item))
                     (rootMapEntry item))
             uniqueZoomLevels m)
        m roots.

(** The state in which the [while] loop starts: [workList] is a copy of the
    root array, whose last element is popped first. *)
Definition initialLoopState (this : ViewIntersection) (zoomLevels : list Z)
    : LoopState :=
  let uniqueZoomLevels := newSet zoomLevels in
  mkLoopState
    (seedRoots uniqueZoomLevels (m_rootTileKeys this) (createMaps uniqueZoomLevels))
    (reverse (m_rootTileKeys this)).

Definition setTileKeyEntries (this : ViewIntersection)
    (m : gmap Z (gmap Z TileKeyEntry)) : ViewIntersection :=
  mkViewIntersection (m_tileWrappingEnabled this) (m_enableMixedLod this)
    (m_viewProjectionMatrix this) (m_rootTileKeys this) m (m_worldBox this).

(** Line 154. *)
Definition targetTileAreaOf (viewportHeight : Q) : number :=
  let r := (256 / viewportHeight)%Q in Num (r * r)%Q.

Definition compute (fuel : nat) (this : ViewIntersection) (mapView : MapView.t)
    (tilingScheme : TilingScheme.t)
    (elevationRangeSource : option ElevationRangeSource.t)
    (zoomLevels : list Z) (dataSources : list DataSource.t)
    : outcome IntersectionResult :=
  let this := setTileKeyEntries this ∅ in
  match m_worldBox this with
  | None => Done (mkIntersectionResult (m_tileKeyEntries this) true) this
  | Some worldBox =>
      let calculationFinal := true in
      if Qeq_bool (MapView.viewportHeight mapView) 0 then AssertionFailed this
      else
        let targetTileArea := targetTileAreaOf (MapView.viewportHeight mapView) in
        let useElevationRangeSource :=
          match elevationRangeSource with
          | None => false
          | Some e =>
              Nat.eqb (TilingScheme.ident (ElevationRangeSource.getTilingScheme e))
                      (TilingScheme.ident tilingScheme)
          end in
        let obbIntersections :=
          ProjectionType_eqb (MapView.projectionType mapView) Spherical
          || useElevationRangeSource in
        let uniqueZoomLevels := newSet zoomLevels in
        match
          whileLoop worldBox tilingScheme zoomLevels dataSources uniqueZoomLevels
            (m_enableMixedLod this) targetTileArea fuel
            (initialLoopState this zoomLevels)
        with
        | None => OutOfFuel
        | Some s =>
            Done (mkIntersectionResult (entries s) calculationFinal)
                 (setTileKeyEntries this (entries s))
        end
  end.
End Compute.

(** ** Concrete collaborators, used to run the definitions *)

(** A key in the style of a Morton code with the offset in the high bits:
    injective on the tile keys of a quadtree and small offsets. *)
Definition exampleKey (k : TileKey) (offset : Z) : Z :=
  Z.of_nat ((2 ^ level k) * (2 ^ level k) + row k * 2 ^ level k + column k)
  + offset * 2 ^ 48.

Definition exampleUtils : TileOffsetUtils :=
  {| getKeyForTileKeyAndOffset := exampleKey |}.

(** The four children of a quadtree tile. *)
Definition quadTreeSubTileKeys (k : TileKey) : list TileKey :=
  [ mkTileKey (2 * row k) (2 * column k) (S (level k));
    mkTileKey (2 * row k) (2 * column k + 1) (S (level k));
    mkTileKey (2 * row k + 1) (2 * column k) (S (level k));
    mkTileKey (2 * row k + 1) (2 * column k + 1) (S (level k)) ]%nat.

(** Equirectangular tiles: level [l] cuts 360 x 180 degrees into
    [2^l x 2^l] boxes. *)
Definition equirectangularGeoBox (k : TileKey) : GeoBox :=
  let n := inject_Z (Z.of_nat (2 ^ level k)) in
  let w := (360 / n)%Q in
  let h := (180 / n)%Q in
  let c := inject_Z (Z.of_nat (column k)) in
  let r := inject_Z (Z.of_nat (row k)) in
  mkGeoBox
    (mkGeoCoordinates (-90 + r * h) (-180 + c * w) None)%Q
    (mkGeoCoordinates (-90 + (r + 1) * h) (-180 + (c + 1) * w) None)%Q.

Definition exampleTilingScheme : TilingScheme.t :=
  TilingScheme.mk 1 equirectangularGeoBox quadTreeSubTileKeys.

(** A data source that subdivides tiles above its zoom level. *)
Definition levelDataSource : DataSource.t :=
  DataSource.mk (fun zoomLevel k =>
    match zoomLevel with
    | Some z => Z.of_nat (level k) <? z
    | None => false
    end).

Definition boxOf (w s e n : Q) : GeoBox :=
  mkGeoBox (mkGeoCoordinates s w None) (mkGeoCoordinates n e None).

Definition exampleCamera : Camera.t :=
  Camera.mk identity4 identity4 (0, 0, 0)%Q.

Definition exampleMapView (g : option GeoBox) (h : Q) : MapView.t :=
  MapView.mk Planar g h.

(** An eastern-hemisphere view on a 512 pixel high viewport. *)
Definition exampleView : ViewIntersection :=
  updateFrustum (newViewIntersection false false)
    (exampleMapView (Some (boxOf 10 10 50 50)) 512) exampleCamera None.

(** A view of the whole globe. *)
Definition globeView : ViewIntersection :=
  updateFrustum (newViewIntersection false false)
    (exampleMapView (Some (boxOf (-180) (-90) 180 90)) 512) exampleCamera None.

(** A view of the whole globe with mixed LOD enabled. *)
Definition mixedLodGlobeView : ViewIntersection :=
  updateFrustum (newViewIntersection false true)
    (exampleMapView (Some (boxOf (-180) (-90) 180 90)) 128) exampleCamera None.

(** A view of the whole globe on a planar projection with tile wrapping
    enabled. *)
Definition wrappingGlobeView : ViewIntersection :=
  updateFrustum (newViewIntersection true false)
    (exampleMapView (Some (boxOf (-540) (-90) 540 90)) 512) exampleCamera None.

(** A view whose map view has no geo box: [updateFrustum] stores the zero
    box. *)
Definition degenerateView : ViewIntersection :=
  updateFrustum (newViewIntersection false false)
    (exampleMapView None 512) exampleCamera None.

(** A data source that always asks for subdivision. *)
Definition eagerDataSource : DataSource.t :=
  DataSource.mk (fun _ _ => true).

(** A camera with a projection that is not the identity. *)
Definition scaledCamera : Camera.t :=
  Camera.mk [[2; 0; 0; 0]; [0; 3; 0; 0]; [0; 0; 1; 5]; [0; 0; 1; 0]]%Q
            identity4 (0, 0, 7)%Q.

Definition scaledView : ViewIntersection :=
  updateFrustum (newViewIntersection false false)
    (exampleMapView (Some (boxOf 10 10 50 50)) 512) scaledCamera None.

(** A candidate of area 0.1 on the work list. *)
Definition smallCandidate : TileKeyEntry :=
  mkTileKeyEntry (mkTileKey 1 1 1) (Num (1 # 10)) 0 0%Q 0%Q 1%Q.

(** ** Notions used by the specification *)

(** The root entry that [computeRequiredInitialRootTileKeys] creates on both
    of its paths: level 0, offset 0, infinite area, zero elevation range. *)
Definition rootEntry : TileKeyEntry :=
  mkTileKeyEntry rootTileKey Infinity 0 0%Q 0%Q 0%Q.

(** The receivers a client can hold: a fresh object, and what the two public
    methods leave behind (also when [compute] stops at its assertion). *)
Inductive Reachable {Utils : TileOffsetUtils} : ViewIntersection -> Prop :=
  | Reachable_new wrap lod : Reachable (newViewIntersection wrap lod)
  | Reachable_updateFrustum this mapView camera override :
      Reachable this -> Reachable (updateFrustum this mapView camera override)
  | Reachable_compute this fuel mapView ts ers zoomLevels dataSources r this' :
      Reachable this ->
      compute fuel this mapView ts ers zoomLevels dataSources = Done r this' ->
      Reachable this'
  | Reachable_assert this fuel mapView ts ers zoomLevels dataSources this' :
      Reachable this ->
      compute fuel this mapView ts ers zoomLevels dataSources = AssertionFailed this' ->
      Reachable this'.

(** The tree a tiling scheme defines: [a] is a proper ancestor of [d] when
    [d] is obtained from [a] by one or more rounds of [getSubTileKeys]. *)
Inductive ancestor (ts : TilingScheme.t) : TileKey -> TileKey -> Prop :=
  | ancestor_parent p c :
      c ∈ TilingScheme.getSubTileKeys ts p -> ancestor ts p c
  | ancestor_step a p c :
      ancestor ts a p -> c ∈ TilingScheme.getSubTileKeys ts p -> ancestor ts a c.

(** The contract of a tiling scheme: sub tiles are one level below their
    parent, and a tile is the sub tile of one parent only. *)
Definition childrenOneLevelDeeper (ts : TilingScheme.t) : Prop :=
  ∀ p c, c ∈ TilingScheme.getSubTileKeys ts p -> level c = S (level p).

Definition uniqueParent (ts : TilingScheme.t) : Prop :=
  ∀ p p' c, c ∈ TilingScheme.getSubTileKeys ts p ->
            c ∈ TilingScheme.getSubTileKeys ts p' -> p = p'.

(** The partition invariant of one zoom-level map. *)
Definition noAncestorPair (ts : TilingScheme.t) (m : gmap Z TileKeyEntry) : Prop :=
  ∀ k1 e1 k2 e2, m !! k1 = Some e1 -> m !! k2 = Some e2 ->
    offset e1 = offset e2 -> ¬ ancestor ts (tileKey e1) (tileKey e2).

(** A property of every entry of every zoom-level map. *)
Definition allEntries (Q : Z -> Z -> TileKeyEntry -> Prop)
    (M : gmap Z (gmap Z TileKeyEntry)) : Prop :=
  ∀ z m k e, M !! z = Some m -> m !! k = Some e -> Q z k e.

(** The entry of tile [k] at offset [off] is in no zoom-level map. *)
Definition absentFrom (M : gmap Z (gmap Z TileKeyEntry)) (k : TileKey) (off : Z)
    : Prop :=
  allEntries (fun _ _ e => ¬ (tileKey e = k ∧ offset e = off)) M.

(** The specification's wording of the intersection test: the two boxes
    overlap strictly on both axes, with epsilon taken off at each boundary. *)
Definition overlapStrictly (a b : GeoBox) : Prop :=
  (west a < east b - MaxError ∧ east a > west b + MaxError ∧
   south a < north b - MaxError ∧ north a > south b + MaxError)%Q.

(** The two boxes overlap by at least [m] on both axes, boundaries
    included. *)
Definition overlapBy (m : Q) (a b : GeoBox) : Prop :=
  (west a <= east b - m ∧ east a >= west b + m ∧
   south a <= north b - m ∧ north a >= south b + m)%Q.

(** Two facing edges are less than [m] apart on some axis. *)
Definition facingEdgesCloserThan (m : Q) (a b : GeoBox) : Prop :=
  let near (x y : Q) := (y - m < x ∧ x < y + m)%Q in
  near (east a) (west b) ∨ near (west a) (east b) ∨
  near (north a) (south b) ∨ near (south a) (north b).

(** The four edges of a box lie between [-R] and [R]. *)
Definition edgesWithin (R : Q) (g : GeoBox) : Prop :=
  (- R <= west g <= R ∧ - R <= east g <= R ∧
   - R <= south g <= R ∧ - R <= north g <= R)%Q.

(** A bound on the rounding error of an edge of a box within [R] plus or
    minus epsilon. *)
Definition roundingMargin (R : Q) : Q := ((R + MaxError) * unitRoundoff)%Q.

(** No pair of facing edges is within [m] of being exactly epsilon apart. *)
Definition offBoundary (m : Q) (a b : GeoBox) : Prop :=
  let off (x y : Q) := (x + m < y ∨ y + m < x)%Q in
  off (west a + MaxError)%Q (east b) ∧ off (west b + MaxError)%Q (east a) ∧
  off (south a + MaxError)%Q (north b) ∧ off (south b + MaxError)%Q (north a).

(** Exchanges the longitude extent of a box with its latitude extent. *)
Definition transposeCoordinates (c : GeoCoordinates) : GeoCoordinates :=
  mkGeoCoordinates (longitude c) (latitude c) (altitude c).

Definition transposeGeoBox (g : GeoBox) : GeoBox :=
  mkGeoBox (transposeCoordinates (southWest g)) (transposeCoordinates (northEast g)).

Definition withAltitudes (g : GeoBox) (lo hi : option Q) : GeoBox :=
  mkGeoBox
    (mkGeoCoordinates (latitude (southWest g)) (longitude (southWest g)) lo)
    (mkGeoCoordinates (latitude (northEast g)) (longitude (northEast g)) hi).

(** *** Invariants of the traversal *)

Section InvariantNotions.
Context {Utils : TileOffsetUtils}.
Variable worldBox : GeoBox.
Variable ts : TilingScheme.t.
Variable zoomLevels : list Z.
Variable dataSources : list DataSource.t.
Variable uz : list Z.
Variable lod : bool.
Variable target : number.

(** Where an entry comes from: the seeding of the roots, or a child that
    passed the intersection test. *)
Definition seeded (e : TileKeyEntry) : Prop :=
  level (tileKey e) = 0%nat ∧ area e = Infinity.

Definition builtAsChild (e : TileKeyEntry) : Prop :=
  area e = Num 1 ∧ distance e = 1%Q ∧
  geoBoxesIntersect worldBox (getGeoBox ts (tileKey e) (offset e)) = true.

Definition originInv (s : LoopState) : Prop :=
  allEntries (fun _ _ e => seeded e ∨ builtAsChild e) (entries s) ∧
  Forall (fun e => seeded e ∨ builtAsChild e) (workList s).

(** The area the code gives to an entry of a tile at a level, and the
    decision of the loop for such an entry. *)
Definition areaAtLevel (l : nat) : number :=
  match l with
  | O => Infinity
  | S _ => Num 1
  end.

Definition descendsKey (k : TileKey) : bool :=
  descends zoomLevels dataSources lod target
    (mkTileKeyEntry k (areaAtLevel (level k)) 0 0%Q 0%Q 0%Q).

(** An entry has the area of its level, and the loop descended through all
    its ancestors. *)
Definition wellPlaced (e : TileKeyEntry) : Prop :=
  area e = areaAtLevel (level (tileKey e)) ∧
  ∀ a, ancestor ts a (tileKey e) -> descendsKey a = true.

Definition sameTile (w e : TileKeyEntry) : Prop :=
  tileKey w = tileKey e ∧ offset w = offset e.

(** The invariant behind the partition property: maps exist for the requested
    zoom levels only; an entry sits at its own key, at a level its map
    allows, and is well placed; an entry that the loop will still replace by
    its children is waiting in the work list. *)
Definition partitionInv (s : LoopState) : Prop :=
  (∀ z, is_Some (entries s !! z) -> z ∈ uz) ∧
  allEntries (fun z k e =>
      k = getKeyForTileKeyAndOffset (tileKey e) (offset e) ∧
      (level (tileKey e) = 0%nat ∨ Z.of_nat (level (tileKey e)) <= z) ∧
      wellPlaced e) (entries s) ∧
  allEntries (fun z k e =>
      Z.of_nat (level (tileKey e)) < z -> descendsKey (tileKey e) = true ->
      ∃ w, w ∈ workList s ∧ sameTile w e) (entries s) ∧
  Forall wellPlaced (workList s).
End InvariantNotions.

Definition withViewProjectionMatrix (this : ViewIntersection) (m : Matrix4)
    : ViewIntersection :=
  mkViewIntersection (m_tileWrappingEnabled this) (m_enableMixedLod this)
    m (m_rootTileKeys this) (m_tileKeyEntries this) (m_worldBox this).

Definition mapOutcome {A : Type} (f : ViewIntersection -> ViewIntersection)
    (o : outcome A) : outcome A :=
  match o with
  | Done a this => Done a (f this)
  | AssertionFailed this => AssertionFailed (f this)
  | OutOfFuel => OutOfFuel
  end.

(** *** What the traversal returns *)

Section ResultNotions.
Context {Utils : TileOffsetUtils}.
Variable worldBox : GeoBox.
Variable ts : TilingScheme.t.
Variable zoomLevels : list Z.
Variable dataSources : list DataSource.t.
Variable lod : bool.
Variable target : number.

(** The tiles the traversal gets to from the root at offset 0: the root, and
    every sub tile of a tile it descends through whose geo box passes the
    test against the world box. *)
Inductive visible : TileKey -> Prop :=
  | visible_root : visible rootTileKey
  | visible_child p c :
      visible p ->
      descendsKey zoomLevels dataSources lod target p = true ->
      c ∈ TilingScheme.getSubTileKeys ts p ->
      geoBoxesIntersect worldBox (getGeoBox ts c 0) = true ->
      visible c.

(** A tile stays in the map of zoom level [z]: its level fits the map (the
    root is seeded in every map), and the loop does not replace it there by
    its children. *)
Definition leafFor (z : Z) (k : TileKey) : Prop :=
  (level k = 0%nat ∨ Z.of_nat (level k) <= z) ∧
  (z <= Z.of_nat (level k) ∨
   descendsKey zoomLevels dataSources lod target k = false).

(** The entry that [compute] builds for a tile at offset 0. *)
Definition entryOf (k : TileKey) : TileKeyEntry :=
  match level k with
  | O => mkTileKeyEntry k Infinity 0 0%Q 0%Q 0%Q
  | S _ => subTileEntry ts k 0
  end.

(** The tile-offset keys of two different visible tiles differ. *)
Definition keysDistinct : Prop :=
  ∀ k k', visible k -> visible k' ->
    getKeyForTileKeyAndOffset k 0 = getKeyForTileKeyAndOffset k' 0 -> k = k'.

(** The entries of the maps and of the work list are the entries of visible
    tiles. *)
Definition visibleInv (s : LoopState) : Prop :=
  allEntries (fun _ _ e => visible (tileKey e) ∧ e = entryOf (tileKey e)) (entries s) ∧
  Forall (fun e => visible (tileKey e) ∧ e = entryOf (tileKey e)) (workList s).

(** Every visible tile that stays in a map is in it, or one of its ancestors
    is still waiting in the work list. *)
Definition completeInv (uz : list Z) (s : LoopState) : Prop :=
  ∀ z k, z ∈ uz -> visible k -> leafFor z k ->
    (∃ m, entries s !! z = Some m ∧
          m !! getKeyForTileKeyAndOffset k 0 = Some (entryOf k)) ∨
    (∃ w, w ∈ workList s ∧ ancestor ts (tileKey w) k).
End ResultNotions.

(** A bound on the rounds of the loop for an entry [d] levels above the
    level at which the data sources stop, with at most [b] sub tiles per
    tile: [1 + b + ... + b^d]. *)
Fixpoint rounds (b d : nat) : nat :=
  match d with
  | O => 1
  | S d' => 1 + b * rounds b d'
  end.

Definition roundsFor (b depth : nat) (workList : list TileKeyEntry) : nat :=
  foldr (fun w n => (rounds b (depth - level (tileKey w)) + n)%nat) 0%nat workList.

Definition withMixedLod (this : ViewIntersection) (lod : bool) : ViewIntersection :=
  mkViewIntersection (m_tileWrappingEnabled this) lod
    (m_viewProjectionMatrix this) (m_rootTileKeys this) (m_tileKeyEntries this)
    (m_worldBox this).

(** A key that tells all tiles and offsets apart. *)
Definition pairingUtils : TileOffsetUtils :=
  {| getKeyForTileKeyAndOffset k off :=
       Z.pos (encode (row k, column k, level k, off)) |}.

(** * Properties *)

(** ** Comparisons on rationals *)

Lemma Qltb_lt x y : Qltb x y = true <-> (x < y)%Q.
Proof.
  unfold Qltb. rewrite negb_true_iff, <- not_true_iff_false, Qle_bool_iff.
  split; [apply Qnot_le_lt | apply Qlt_not_le].
Qed.

Lemma Qleb_le x y : Qleb x y = true <-> (x <= y)%Q.
Proof. apply Qle_bool_iff. Qed.

Lemma Qgeb_ge x y : Qgeb x y = true <-> (y <= x)%Q.
Proof. apply Qle_bool_iff. Qed.

(** ** Rounding *)

Lemma roundHalfEven_error t :
  (inject_Z (roundHalfEven t) - (1 # 2) <= t ∧
   t <= inject_Z (roundHalfEven t) + (1 # 2))%Q.
Proof.
  unfold roundHalfEven.
  pose proof (Qfloor_le t) as Hlo. pose proof (Qlt_floor t) as Hhi.
  rewrite inject_Z_plus in Hhi. change (inject_Z 1) with 1%Q in Hhi.
  destruct (Qcompare (t - inject_Z (Qfloor t)) (1 # 2)) eqn:Hc.
  - apply Qeq_alt in Hc. destruct (Z.even (Qfloor t));
      rewrite ?inject_Z_plus; change (inject_Z 1) with 1%Q; split; lra.
  - apply Qlt_alt in Hc. split; lra.
  - apply Qgt_alt in Hc. rewrite inject_Z_plus. change (inject_Z 1) with 1%Q.
    split; lra.
Qed.

Lemma two_neq_0 : ¬ (2 == 0)%Q.
Proof. discriminate. Qed.

Lemma pow2_pos e : (0 < 2 ^ e)%Q.
Proof. apply Qpower_0_lt. reflexivity. Qed.

Lemma pow2_succ e : (2 ^ (e + 1) == 2 * 2 ^ e)%Q.
Proof. rewrite Qpower_plus by apply two_neq_0. change (2 ^ 1)%Q with 2%Q. ring. Qed.

Lemma pow2_pred e : (2 ^ e == 2 * 2 ^ (e - 1))%Q.
Proof.
  rewrite <- pow2_succ. replace (e - 1 + 1) with e by lia. reflexivity.
Qed.

Lemma pow2_inject k : 0 <= k -> (inject_Z (2 ^ k) == 2 ^ k)%Q.
Proof. intros Hk. rewrite Zpower_Qpower by exact Hk. reflexivity. Qed.

(** [binade] finds the power of two at or below a positive rational. *)
Lemma binade_spec q :
  (0 < q)%Q -> (2 ^ binade q <= q ∧ q < 2 ^ (binade q + 1))%Q.
Proof.
  intros Hq. destruct q as [n d].
  assert (Hn : 0 < n) by (unfold Qlt in Hq; cbn in Hq; lia).
  unfold binade. cbn [Qnum Qden].
  set (ln := Z.log2 n). set (ld := Z.log2 (Z.pos d)).
  destruct (Z.log2_spec n Hn) as [Hn1 Hn2]. fold ln in Hn1, Hn2.
  destruct (Z.log2_spec (Z.pos d) eq_refl) as [Hd1 Hd2]. fold ld in Hd1, Hd2.
  assert (Hln : 0 <= ln) by apply Z.log2_nonneg.
  assert (Hld : 0 <= ld) by apply Z.log2_nonneg.
  rewrite Zle_Qle, pow2_inject in Hn1, Hd1 by assumption.
  rewrite Zlt_Qlt, pow2_inject in Hn2, Hd2 by lia.
  replace (Z.succ ln) with (ln + 1) in Hn2 by lia.
  replace (Z.succ ld) with (ld + 1) in Hd2 by lia.
  rewrite pow2_succ in Hn2, Hd2.
  assert (Hqv : (n # d == inject_Z n / inject_Z (Z.pos d))%Q) by apply Qmake_Qdiv.
  assert (HD : (0 < inject_Z (Z.pos d))%Q) by reflexivity.
  assert (Hl : (2 ^ (ln - ld) == 2 ^ ln / 2 ^ ld)%Q)
    by (apply Qpower_minus, two_neq_0).
  pose proof (pow2_pos ln) as Pn. pose proof (pow2_pos ld) as Pd.
  set (N := inject_Z n) in *. set (D := inject_Z (Z.pos d)) in *.
  set (A := (2 ^ ln)%Q) in *. set (B := (2 ^ ld)%Q) in *.
  assert (Hlow : (A / B < 2 * (N / D))%Q).
  { apply Qlt_shift_div_r; [exact Pd |].
    assert ((N / D * D == N)%Q) by (field; lra).
    assert ((0 < N / D)%Q) by (apply Qlt_shift_div_l; lra).
    nra. }
  assert (Hhigh : (N / D < 2 * (A / B))%Q).
  { apply Qlt_shift_div_r; [exact HD |].
    assert ((A / B * B == A)%Q) by (field; lra).
    assert ((0 < A / B)%Q) by (apply Qlt_shift_div_l; lra).
    nra. }
  destruct (Qle_bool (2 ^ (ln - ld)) (n # d)) eqn:Ht.
  - apply Qle_bool_iff in Ht. split; [exact Ht |].
    rewrite pow2_succ, Hl, Hqv. exact Hhigh.
  - assert (Hlt : (n # d < 2 ^ (ln - ld))%Q).
    { apply Qnot_le_lt. intros Hle. apply Qle_bool_iff in Hle. congruence. }
    replace (ln - ld - 1 + 1) with (ln - ld) by lia.
    split; [| exact Hlt].
    pose proof (pow2_pred (ln - ld)) as Hp. rewrite Hl in Hp.
    rewrite Hqv. lra.
Qed.

(** The significand that [roundPositive] rounds lies in [[2^52, 2^53)]: the
    result has 53 bits. *)
Lemma roundPositive_significand q :
  (0 < q)%Q ->
  (2 ^ 52 <= q * 2 ^ (- (binade q - 52)) ∧ q * 2 ^ (- (binade q - 52)) < 2 ^ 53)%Q.
Proof.
  intros Hq. destruct (binade_spec q Hq) as [Hlo Hhi].
  set (e := binade q - 52) in *.
  pose proof (pow2_pos e) as HE. pose proof (pow2_pos (- e)) as HI.
  assert (Hinv : (2 ^ (- e) * 2 ^ e == 1)%Q).
  { rewrite <- Qpower_plus by apply two_neq_0.
    replace (- e + e) with 0 by lia. reflexivity. }
  assert (Hb : (2 ^ binade q == 2 ^ 52 * 2 ^ e)%Q).
  { rewrite <- Qpower_plus by apply two_neq_0.
    replace (52 + e) with (binade q) by (unfold e; lia). reflexivity. }
  assert (Hb' : (2 ^ (binade q + 1) == 2 ^ 53 * 2 ^ e)%Q).
  { rewrite <- Qpower_plus by apply two_neq_0.
    replace (53 + e) with (binade q + 1) by (unfold e; lia). reflexivity. }
  rewrite Hb in Hlo. rewrite Hb' in Hhi.
  assert (Hq' : (q * 2 ^ (- e) * 2 ^ e == q)%Q)
    by (rewrite <- Qmult_assoc, Hinv; ring).
  split.
  - apply Qnot_lt_le. intros Hlt.
    assert ((q * 2 ^ (- e) * 2 ^ e < 2 ^ 52 * 2 ^ e)%Q)
      by (apply Qmult_lt_compat_r; assumption).
    lra.
  - apply Qnot_le_lt. intros Hle.
    assert ((2 ^ 53 * 2 ^ e <= q * 2 ^ (- e) * 2 ^ e)%Q)
      by (apply Qmult_le_compat_r; [exact Hle | lra]).
    lra.
Qed.

Lemma roundPositive_error q :
  (0 < q)%Q ->
  (q * (1 - unitRoundoff) <= roundPositive q ∧
   roundPositive q <= q * (1 + unitRoundoff))%Q.
Proof.
  intros Hq. unfold roundPositive.
  destruct (roundPositive_significand q Hq) as [Ht _].
  set (e := binade q - 52) in *.
  pose proof (pow2_pos e) as HE.
  assert (Hinv : (2 ^ (- e) * 2 ^ e == 1)%Q).
  { rewrite <- Qpower_plus by apply two_neq_0.
    replace (- e + e) with 0 by lia. reflexivity. }
  destruct (roundHalfEven_error (q * 2 ^ (- e))) as [Hm1 Hm2].
  set (m := inject_Z (roundHalfEven (q * 2 ^ (- e)))) in *.
  assert (Hq' : (q == q * 2 ^ (- e) * 2 ^ e)%Q)
    by (rewrite <- Qmult_assoc, Hinv; ring).
  set (E := (2 ^ e)%Q) in *. set (t := (q * 2 ^ (- e))%Q) in *.
  change (2 ^ 52)%Q with 4503599627370496%Q in Ht.
  unfold unitRoundoff.
  assert (H1 : (t * (1 - (1 # 9007199254740992)) <= m)%Q) by lra.
  assert (H2 : (m <= t * (1 + (1 # 9007199254740992)))%Q) by lra.
  split.
  - rewrite Hq' at 1.
    assert (Hr : (t * E * (1 - (1 # 9007199254740992))
                  == t * (1 - (1 # 9007199254740992)) * E)%Q) by ring.
    rewrite Hr.
    apply Qmult_le_compat_r; lra.
  - rewrite Hq' at 1.
    assert (Hr : (t * E * (1 + (1 # 9007199254740992))
                  == t * (1 + (1 # 9007199254740992)) * E)%Q) by ring.
    rewrite Hr.
    apply Qmult_le_compat_r; lra.
Qed.

(** The relative error of a rounding is at most [2^-53]. *)
Lemma roundBinary64_error q :
  ((0 <= q)%Q ->
   (q * (1 - unitRoundoff) <= roundBinary64 q ∧
    roundBinary64 q <= q * (1 + unitRoundoff))%Q) ∧
  ((q <= 0)%Q ->
   (q * (1 + unitRoundoff) <= roundBinary64 q ∧
    roundBinary64 q <= q * (1 - unitRoundoff))%Q).
Proof.
  unfold roundBinary64. destruct q as [n d]. destruct n as [| p | p]; cbn [Qnum].
  - assert (H0 : (0 # d == 0)%Q) by reflexivity.
    split; intros _; rewrite H0; split; lra.
  - assert (Hq : (0 < Z.pos p # d)%Q) by reflexivity.
    split; [intros _; apply roundPositive_error, Hq | intros Hle; lra].
  - assert (Hq : (Z.neg p # d < 0)%Q) by reflexivity.
    split; [intros Hge; lra |]. intros _.
    assert (Hpos : (0 < - (Z.neg p # d))%Q) by lra.
    destruct (roundPositive_error _ Hpos). split; lra.
Qed.

(** A rounded value of magnitude at most [M] is off by at most [M * 2^-53]. *)
Lemma roundBinary64_within M y :
  (- M <= y)%Q -> (y <= M)%Q ->
  (y - M * unitRoundoff <= roundBinary64 y ∧
   roundBinary64 y <= y + M * unitRoundoff)%Q.
Proof.
  intros Hlo Hhi. destruct (roundBinary64_error y) as [Hpos Hneg].
  unfold unitRoundoff in *.
  destruct (Qlt_le_dec y 0) as [Hy | Hy].
  - destruct Hneg as [H1 H2]; [lra |]. split; lra.
  - destruct (Hpos Hy) as [H1 H2]. split; lra.
Qed.

Lemma pow2_le a b : a <= b -> (2 ^ a <= 2 ^ b)%Q.
Proof.
  intros Hab. replace b with (a + (b - a)) by lia.
  rewrite Qpower_plus by apply two_neq_0.
  assert (H1 : (1 <= 2 ^ (b - a))%Q).
  { rewrite <- pow2_inject by lia. change 1%Q with (inject_Z 1).
    rewrite <- Zle_Qle. assert (0 < 2 ^ (b - a)) by (apply Z.pow_pos_nonneg; lia). lia. }
  pose proof (pow2_pos a). nra.
Qed.

Lemma binade_unique q b :
  (2 ^ b <= q)%Q -> (q < 2 ^ (b + 1))%Q -> binade q = b.
Proof.
  intros Hlo Hhi.
  assert (Hq : (0 < q)%Q) by (pose proof (pow2_pos b); lra).
  destruct (binade_spec q Hq) as [Blo Bhi].
  destruct (Z.lt_trichotomy (binade q) b) as [Hlt | [Heq | Hgt]]; [| exact Heq |].
  - pose proof (pow2_le (binade q + 1) b ltac:(lia)). lra.
  - pose proof (pow2_le (b + 1) (binade q) ltac:(lia)). lra.
Qed.

Lemma roundHalfEven_integer t k : (t == inject_Z k)%Q -> roundHalfEven t = k.
Proof.
  intros Ht. unfold roundHalfEven.
  assert (Hf : Qfloor t = k) by (rewrite Ht; apply Qfloor_Z).
  rewrite Hf.
  assert (Hc : Qcompare (t - inject_Z k) (1 # 2) = Lt).
  { apply (proj1 (Qlt_alt _ _)). revert Ht. generalize (inject_Z k). intros y Ht. lra. }
  rewrite Hc. reflexivity.
Qed.

(** A double is its own rounding. *)
Lemma roundPositive_exact q m e :
  0 < m < 2 ^ 53 -> (q == inject_Z m * 2 ^ e)%Q -> (roundPositive q == q)%Q.
Proof.
  intros [Hm0 Hm] Hq.
  destruct (Z.log2_spec m Hm0) as [Hl1 Hl2].
  set (l := Z.log2 m) in *.
  assert (Hl0 : 0 <= l) by apply Z.log2_nonneg.
  assert (Hl52 : l <= 52).
  { destruct (Z_le_gt_dec l 52) as [H | H]; [exact H |].
    assert (2 ^ 53 <= 2 ^ l) by (apply Z.pow_le_mono_r; lia). lia. }
  rewrite Zle_Qle, pow2_inject in Hl1 by assumption.
  rewrite Zlt_Qlt, pow2_inject in Hl2 by lia.
  replace (Z.succ l) with (l + 1) in Hl2 by lia.
  pose proof (pow2_pos e) as HE.
  assert (Hb : binade q = l + e).
  { apply binade_unique.
    - rewrite Qpower_plus by apply two_neq_0. rewrite Hq.
      apply Qmult_le_compat_r; lra.
    - replace (l + e + 1) with (l + 1 + e) by lia.
      rewrite Qpower_plus by apply two_neq_0. rewrite Hq.
      apply Qmult_lt_compat_r; lra. }
  unfold roundPositive. rewrite Hb.
  assert (Hs : (q * 2 ^ (- (l + e - 52)) == inject_Z (m * 2 ^ (52 - l)))%Q).
  { rewrite inject_Z_mult, pow2_inject by lia. rewrite Hq.
    replace (- (l + e - 52)) with (- e + (52 - l)) by lia.
    rewrite Qpower_plus by apply two_neq_0.
    assert (Hinv : (2 ^ e * 2 ^ (- e) == 1)%Q).
    { rewrite <- Qpower_plus by apply two_neq_0.
      replace (e + - e) with 0 by lia. reflexivity. }
    rewrite <- (Qmult_1_l (inject_Z m * 2 ^ (52 - l))) at 1.
    rewrite <- Hinv. ring. }
  rewrite (roundHalfEven_integer _ _ Hs).
  rewrite inject_Z_mult, pow2_inject by lia. rewrite Hq.
  rewrite <- !Qmult_assoc. rewrite <- Qpower_plus by apply two_neq_0.
  replace (52 - l + (l + e - 52)) with e by lia. reflexivity.
Qed.

Lemma roundBinary64_exact q : isBinary64 q -> (roundBinary64 q == q)%Q.
Proof.
  intros (m & e & Hm & Hq). unfold roundBinary64.
  pose proof (pow2_pos e) as HE.
  destruct q as [n d]. destruct n as [| p | p]; cbn [Qnum].
  - reflexivity.
  - assert (Hpos : (0 < Z.pos p # d)%Q) by reflexivity.
    apply (roundPositive_exact _ m e); [| exact Hq].
    split; [| lia].
    destruct (Z_lt_le_dec 0 m) as [H | H]; [exact H |].
    assert ((inject_Z m <= 0)%Q) by (change 0%Q with (inject_Z 0); rewrite <- Zle_Qle; exact H).
    nra.
  - assert (Hneg : (Z.neg p # d < 0)%Q) by reflexivity.
    assert (Hq' : (- (Z.neg p # d) == inject_Z (- m) * 2 ^ e)%Q).
    { rewrite Hq, inject_Z_opp. ring. }
    rewrite (roundPositive_exact _ (- m) e); [ring | | exact Hq'].
    split; [| lia].
    destruct (Z_lt_le_dec m 0) as [H | H]; [lia |].
    assert ((0 <= inject_Z m)%Q) by (change 0%Q with (inject_Z 0); rewrite <- Zle_Qle; exact H).
    nra.
Qed.

(** With offset 0 [getGeoBox] returns the box of the tiling scheme: the
    offset it adds to the two longitudes is zero, and a double plus zero is
    the same double. *)
Lemma getGeoBox_offset_0 ts k :
  let g := TilingScheme.getGeoBox ts k in
  isBinary64 (west g) -> isBinary64 (east g) ->
  (west (getGeoBox ts k 0) == west g)%Q ∧ (east (getGeoBox ts k 0) == east g)%Q ∧
  south (getGeoBox ts k 0) = south g ∧ north (getGeoBox ts k 0) = north g.
Proof.
  cbn zeta. intros Hw He.
  unfold getGeoBox, shiftLongitude, west, east, south, north.
  cbn [southWest northEast longitude latitude].
  change (roundBinary64 (360 * inject_Z 0)) with 0%Q.
  assert (Hplus : ∀ x, isBinary64 x -> (roundBinary64 (x + 0) == x)%Q).
  { intros x (m & e & Hm & Hx).
    rewrite roundBinary64_exact; [lra |].
    exists m, e. split; [exact Hm | rewrite <- Hx; lra]. }
  split; [apply Hplus, Hw |]. split; [apply Hplus, He |]. split; reflexivity.
Qed.

Lemma MaxError_pos : (0 < MaxError)%Q.
Proof. vm_compute. reflexivity. Qed.

(** The value of the double [1E-7]: [0x1.ad7f29abcaf48p-24]. *)
Lemma MaxError_value : (MaxError == 7555786372591432 / 2 ^ 76)%Q.
Proof. vm_compute. reflexivity. Qed.

(** ** The GeoBox intersection test *)

Lemma geoBoxesIntersect_spec a b :
  geoBoxesIntersect a b = true <->
  (west a < roundBinary64 (east b - MaxError) ∧
   roundBinary64 (west b + MaxError) <= east a ∧
   south a <= roundBinary64 (north b - MaxError) ∧
   roundBinary64 (south b + MaxError) <= north a)%Q.
Proof.
  unfold geoBoxesIntersect.
  rewrite !andb_true_iff, Qltb_lt, Qleb_le, !Qgeb_ge. tauto.
Qed.

(** The four rounded sums of the test, for a second box within [R]. *)
Lemma geoBoxesIntersect_sums b R :
  edgesWithin R b ->
  let δ := roundingMargin R in
  (east b - MaxError - δ <= roundBinary64 (east b - MaxError) <= east b - MaxError + δ ∧
   west b + MaxError - δ <= roundBinary64 (west b + MaxError) <= west b + MaxError + δ ∧
   north b - MaxError - δ <= roundBinary64 (north b - MaxError) <= north b - MaxError + δ ∧
   south b + MaxError - δ <= roundBinary64 (south b + MaxError) <= south b + MaxError + δ)%Q.
Proof.
  intros (Hw & He & Hs & Hn). cbn zeta. unfold roundingMargin.
  pose proof MaxError_pos as Heps.
  repeat split;
    apply (roundBinary64_within (R + MaxError)); lra.
Qed.

(** C4, as the specification words it, fails: a box whose northern edge lies
    exactly epsilon north of the unit box's southern edge overlaps it by no
    more than epsilon in latitude, and the test accepts the pair. *)
Lemma geoBoxesIntersect_accepts_epsilon_overlap :
  let a := boxOf 0 (-1) 1 MaxError in
  let b := boxOf 0 0 1 1 in
  geoBoxesIntersect a b = true ∧ ¬ overlapStrictly a b.
Proof.
  split; [vm_compute; reflexivity |].
  intros (_ & _ & _ & Hn). cbn -[MaxError] in Hn. lra.
Qed.

(** C4 (amended): for a second box with edges within [R] degrees, where the
    rounding of an edge plus or minus epsilon is off by at most
    [δ = (R + epsilon) * 2^-53], the test returns [true] only for boxes that
    overlap by at least [epsilon - δ] on both axes, boundaries included, and
    it returns [true] for all boxes that overlap by at least [epsilon + δ]
    on both axes and by more than that at the western edge of the first box;
    it rejects two boxes with facing edges less than [epsilon - δ] apart on
    either axis; the altitudes of the corners play no role.  Epsilon is the
    double [1E-7]. *)
Theorem geoBoxesIntersect_epsilon_overlap (a b : GeoBox) (R : Q) :
  edgesWithin R b ->
  (geoBoxesIntersect a b = true ->
   overlapBy (MaxError - roundingMargin R) a b) ∧
  (overlapBy (MaxError + roundingMargin R) a b ->
   (west a < east b - (MaxError + roundingMargin R))%Q ->
   geoBoxesIntersect a b = true) ∧
  (facingEdgesCloserThan (MaxError - roundingMargin R) a b ->
   geoBoxesIntersect a b = false) ∧
  (∀ lo hi lo' hi',
     geoBoxesIntersect (withAltitudes a lo hi) (withAltitudes b lo' hi')
     = geoBoxesIntersect a b).
Proof.
  intros Hb.
  destruct (geoBoxesIntersect_sums b R Hb) as (He & Hw & Hn & Hs).
  assert (Honly : geoBoxesIntersect a b = true ->
                  overlapBy (MaxError - roundingMargin R) a b).
  { intros Hi. apply geoBoxesIntersect_spec in Hi.
    unfold overlapBy. repeat split; lra. }
  split; [exact Honly |]. split; [| split].
  - intros (H1 & H2 & H3 & H4) Hstrict. apply geoBoxesIntersect_spec.
    repeat split; lra.
  - intros Hclose. apply not_true_is_false. intros Hi.
    destruct (Honly Hi) as (H1 & H2 & H3 & H4).
    destruct Hclose as [Hc | [Hc | [Hc | Hc]]]; lra.
  - reflexivity.
Qed.

Lemma geoBoxesIntersect_epsilon_overlap_witness :
  geoBoxesIntersect (boxOf 0 0 2 2) (boxOf 1 1 3 3) = true ∧
  geoBoxesIntersect (boxOf 0 0 1 1) (boxOf 1 0 2 1) = false.
Proof.
  assert (Hm : (roundingMargin 4 < MaxError)%Q) by (vm_compute; reflexivity).
  pose proof MaxError_pos as Heps.
  assert (Hm0 : (0 < roundingMargin 4)%Q) by (vm_compute; reflexivity).
  assert (Hm1 : (MaxError + roundingMargin 4 < 1)%Q) by (vm_compute; reflexivity).
  split.
  - destruct (geoBoxesIntersect_epsilon_overlap (boxOf 0 0 2 2) (boxOf 1 1 3 3) 4)
      as (_ & Haccept & _).
    + unfold edgesWithin. cbn -[MaxError roundingMargin]. repeat split; lra.
    + apply Haccept.
      * unfold overlapBy. cbn -[MaxError roundingMargin]. repeat split; lra.
      * cbn -[MaxError roundingMargin]. lra.
  - destruct (geoBoxesIntersect_epsilon_overlap (boxOf 0 0 1 1) (boxOf 1 0 2 1) 4)
      as (_ & _ & Hclose & _).
    + unfold edgesWithin. cbn -[MaxError roundingMargin]. repeat split; lra.
    + apply Hclose. left. cbn -[MaxError roundingMargin]. split; lra.
Defined.

(** C5: the test is not symmetric in longitude and latitude.  A box whose
    eastern edge lies exactly epsilon east of the unit box's western edge is
    rejected (line 39 compares with [<]); after exchanging longitude and
    latitude in both boxes the same pair is accepted (line 41 compares with
    [<=]). *)
Theorem geoBoxesIntersect_transpose_differs :
  let a := boxOf 0 0 1 1 in
  let b := boxOf (-1) (-1) MaxError 1 in
  geoBoxesIntersect a b = false ∧
  geoBoxesIntersect (transposeGeoBox a) (transposeGeoBox b) = true.
Proof. split; reflexivity. Qed.

(** ** The per-zoom maps *)

Lemma elem_of_newSet (z : Z) (l : list Z) : z ∈ newSet l <-> z ∈ l.
Proof.
  induction l as [| x l IH]; simpl; [reflexivity |].
  rewrite !elem_of_cons, list_elem_of_filter, IH.
  destruct (decide (z = x)); tauto.
Qed.

Lemma lookup_forEachZoomLevel skip f uz (M : gmap Z (gmap Z TileKeyEntry)) z :
  (∀ x, f (f x) = f x) ->
  forEachZoomLevel skip f uz M !! z
  = if bool_decide (z ∈ uz) && negb (skip z) then f <$> (M !! z) else M !! z.
Proof.
  intros Hf. unfold forEachZoomLevel. revert M.
  induction uz as [| a uz IH]; intros M; cbn [foldl].
  - reflexivity.
  - rewrite IH. destruct (decide (z = a)) as [-> | Hne].
    + rewrite (bool_decide_eq_true_2 (a ∈ a :: uz)) by apply list_elem_of_here.
      destruct (skip a) eqn:Hs; cbn [negb andb].
      * rewrite andb_false_r. reflexivity.
      * rewrite andb_true_r, lookup_alter_eq.
        destruct (bool_decide (a ∈ uz)); [| reflexivity].
        destruct (M !! a); simpl; [rewrite Hf |]; reflexivity.
    + assert (Hb : bool_decide (z ∈ a :: uz) = bool_decide (z ∈ uz)).
      { apply bool_decide_ext. rewrite elem_of_cons. tauto. }
      rewrite Hb. destruct (skip a); [reflexivity |].
      rewrite lookup_alter_ne by congruence. reflexivity.
Qed.

Lemma insert_idempotent k e (m : gmap Z TileKeyEntry) :
  <[k := e]> (<[k := e]> m) = <[k := e]> m.
Proof. apply insert_insert_eq. Qed.

Lemma delete_idempotent k (m : gmap Z TileKeyEntry) :
  delete k (delete k m) = delete k m.
Proof. apply delete_id, lookup_delete_eq. Qed.

Section Maps.
Context {Utils : TileOffsetUtils}.

Lemma lookup_createMaps uz z :
  createMaps uz !! z = if bool_decide (z ∈ uz) then Some ∅ else None.
Proof.
  unfold createMaps.
  assert (Hgen : ∀ M : gmap Z (gmap Z TileKeyEntry),
    foldl (fun m zoomLevel => <[zoomLevel := ∅]> m) M uz !! z
    = if bool_decide (z ∈ uz) then Some ∅ else M !! z).
  { induction uz as [| a uz IH]; intros M; cbn [foldl].
    - reflexivity.
    - rewrite IH. destruct (decide (z = a)) as [-> | Hne].
      + rewrite (bool_decide_eq_true_2 (a ∈ a :: uz)) by apply list_elem_of_here.
        rewrite lookup_insert_eq. destruct (bool_decide (a ∈ uz)); reflexivity.
      + rewrite lookup_insert_ne by congruence.
        apply (f_equal (fun b : bool => if b then Some ∅ else M !! z)).
        apply bool_decide_ext. rewrite elem_of_cons. tauto. }
  rewrite Hgen, lookup_empty. reflexivity.
Qed.

(** Every property of the seeded maps follows from what holds of each root
    at its own key. *)
Lemma allEntries_alter_insert Q M z k e :
  allEntries Q M -> Q z k e -> allEntries Q (alter (insert k e) z M).
Proof.
  intros HM HQ z' m' k' e' Hz' Hk'.
  rewrite lookup_alter in Hz'. destruct (decide (z = z')) as [<- |].
  - destruct (M !! z) as [m |] eqn:Hm; [| discriminate].
    injection Hz' as <-. rewrite lookup_insert in Hk'.
    destruct (decide (k = k')) as [<- |]; [congruence | eauto].
  - eauto.
Qed.

Lemma allEntries_seedRoots (Q : Z -> Z -> TileKeyEntry -> Prop) uz roots M :
  allEntries Q M ->
  (∀ item z, item ∈ roots -> z ∈ uz ->
     Q z (getKeyForTileKeyAndOffset (tileKey item) (offset item)) (rootMapEntry item)) ->
  allEntries Q (seedRoots uz roots M).
Proof.
  unfold seedRoots. revert M.
  induction roots as [| item roots IH]; intros M HM HQ; simpl; [exact HM |].
  apply IH.
  - assert (Hitem : ∀ z, z ∈ uz ->
      Q z (getKeyForTileKeyAndOffset (tileKey item) (offset item)) (rootMapEntry item)).
    { intros z Hz. apply HQ; [apply list_elem_of_here | exact Hz]. }
    clear HQ IH. unfold forEachZoomLevel. revert M HM.
    induction uz as [| a uz IHu]; intros M HM; simpl; [exact HM |].
    apply IHu.
    + intros z Hz. apply Hitem. apply list_elem_of_further, Hz.
    + apply allEntries_alter_insert; [exact HM |].
      apply Hitem, list_elem_of_here.
  - intros item' z Hi Hz. apply HQ; [apply list_elem_of_further, Hi | exact Hz].
Qed.

Lemma allEntries_createMaps Q uz : allEntries Q (createMaps uz).
Proof.
  intros z m k e Hz Hk. rewrite lookup_createMaps in Hz.
  destruct (bool_decide (z ∈ uz)); [| discriminate].
  injection Hz as <-. rewrite lookup_empty in Hk. discriminate.
Qed.

Lemma seedRoots_defined uz roots M z :
  is_Some (seedRoots uz roots M !! z) <-> is_Some (M !! z).
Proof.
  unfold seedRoots. revert M.
  induction roots as [| item roots IH]; intros M; simpl; [reflexivity |].
  rewrite IH, lookup_forEachZoomLevel by (intros; apply insert_idempotent).
  destruct (_ && _); [| reflexivity].
  rewrite fmap_is_Some. reflexivity.
Qed.
End Maps.

(** ** The loop and its fuel *)

Section Loop.
Context {Utils : TileOffsetUtils}.
Variable worldBox : GeoBox.
Variable ts : TilingScheme.t.
Variable zoomLevels : list Z.
Variable dataSources : list DataSource.t.
Variable uz : list Z.
Variable lod : bool.
Variable target : number.

Local Abbreviation body := (loopBody worldBox ts zoomLevels dataSources uz lod target).
Local Abbreviation while := (whileLoop worldBox ts zoomLevels dataSources uz lod target).
Local Abbreviation reaches := (loopReaches worldBox ts zoomLevels dataSources uz lod target).

Lemma loopBody_descends s tileEntry rest :
  workList s = tileEntry :: rest ->
  body s =
    if descends zoomLevels dataSources lod target tileEntry
    then foldl (visitChild worldBox ts uz (offset tileEntry))
           (mkLoopState
              (forEachZoomLevel
                 (fun zoomLevel => Z.of_nat (level (tileKey tileEntry)) >=? zoomLevel)
                 (delete (getKeyForTileKeyAndOffset (tileKey tileEntry) (offset tileEntry)))
                 uz (entries s))
              rest)
           (TilingScheme.getSubTileKeys ts (tileKey tileEntry))
    else mkLoopState (entries s) rest.
Proof.
  intros Hw. unfold loopBody, descends. rewrite Hw.
  destruct (someShouldSubdivide _ _ _ _); [| reflexivity].
  destruct (lod && numLt _ _); reflexivity.
Qed.

Lemma loopReaches_first s s' :
  workList s ≠ [] -> reaches (body s) s' -> reaches s s'.
Proof.
  intros Hs Hr. induction Hr as [| s' Hr IH Hne].
  - apply loopReaches_round; [apply loopReaches_here | exact Hs].
  - apply loopReaches_round; assumption.
Qed.

Lemma whileLoop_reaches fuel s s' :
  while fuel s = Some s' -> reaches s s' ∧ workList s' = [].
Proof.
  revert s. induction fuel as [| fuel IH]; intros s; simpl;
    destruct (workList s) eqn:Hw; intros Hrun; try discriminate.
  - injection Hrun as <-. split; [apply loopReaches_here | exact Hw].
  - injection Hrun as <-. split; [apply loopReaches_here | exact Hw].
  - destruct (IH _ Hrun) as [Hr He]. split; [| exact He].
    apply loopReaches_first; [rewrite Hw; discriminate | exact Hr].
Qed.

Lemma loopReaches_invariant (P : LoopState -> Prop) s s' :
  P s -> (∀ x, P x -> workList x ≠ [] -> P (body x)) -> reaches s s' -> P s'.
Proof. intros Hs Hstep Hr. induction Hr; auto. Qed.

(** More fuel does not change the answer of a run that completes. *)
Lemma whileLoop_fuel_irrelevant fuel1 fuel2 s a b :
  while fuel1 s = Some a -> while fuel2 s = Some b -> a = b.
Proof.
  revert fuel2 s. induction fuel1 as [| fuel1 IH]; intros fuel2 s; simpl;
    destruct (workList s) eqn:Hw; intros H1; try discriminate.
  - destruct fuel2; simpl; rewrite Hw; congruence.
  - destruct fuel2; simpl; rewrite Hw; congruence.
  - destruct fuel2; simpl; rewrite Hw; [discriminate |]. eauto.
Qed.
End Loop.

(** ** What a completed [compute] is made of *)

Section ComputeFacts.
Context {Utils : TileOffsetUtils}.

Lemma compute_Done_inv fuel this mapView ts ers zl ds r this' :
  compute fuel this mapView ts ers zl ds = Done r this' ->
  calculationFinal r = true ∧
  this' = setTileKeyEntries this (tileKeyEntries r) ∧
  ((m_worldBox this = None ∧ tileKeyEntries r = ∅) ∨
   (∃ wb s,
      m_worldBox this = Some wb ∧
      whileLoop wb ts zl ds (newSet zl) (m_enableMixedLod this)
        (targetTileAreaOf (MapView.viewportHeight mapView)) fuel
        (initialLoopState this zl) = Some s ∧
      tileKeyEntries r = entries s)).
Proof.
  unfold compute. cbn [m_worldBox setTileKeyEntries m_enableMixedLod].
destruct (m_worldBox this) as [wb |] eqn:Hwb.
- destruct (Qeq_bool _ _); [discriminate |].
  destruct (whileLoop _ _ _ _ _ _ _ _ _) as [s |] eqn:Hrun; [| discriminate].
  intros Hd. injection Hd as <- <-. cbn.
  split; [reflexivity |]. split; [reflexivity |]. right.
  exists wb, s. split; [reflexivity |]. split; [exact Hrun | reflexivity].
- intros Hd. injection Hd as <- <-. cbn.
  split; [reflexivity |]. split; [reflexivity |]. left. split; reflexivity.
Qed.

Lemma Reachable_roots this :
  Reachable this -> m_rootTileKeys this = [] ∨ m_rootTileKeys this = [rootEntry].
Proof.
  induction 1 as [wrap lod | this mapView camera override _ _
                 | this fuel mapView ts ers zl ds r this' _ IH Hc
                 | this fuel mapView ts ers zl ds this' _ IH Hc].
  - left. reflexivity.
  - right. unfold updateFrustum, computeRequiredInitialRootTileKeys. cbn.
    destruct (_ || _); reflexivity.
  - apply compute_Done_inv in Hc as (_ & -> & _). exact IH.
  - unfold compute in Hc. cbn in Hc.
    destruct (m_worldBox this); [| discriminate].
    destruct (Qeq_bool _ _).
    + injection Hc as <-. exact IH.
    + destruct (whileLoop _ _ _ _ _ _ _ _ _); discriminate.
Qed.
End ComputeFacts.

(** ** Where the entries of the maps and of the work list come from *)

Lemma allEntries_forEachZoomLevel_delete Q skip k uz M :
  allEntries Q M -> allEntries Q (forEachZoomLevel skip (delete k) uz M).
Proof.
  intros HM z m k' e Hz Hk.
  rewrite lookup_forEachZoomLevel in Hz by (intros; apply delete_idempotent).
  destruct (_ && _); [| eauto].
  destruct (M !! z) as [m0 |] eqn:Hm0; [| discriminate].
  injection Hz as <-. rewrite lookup_delete in Hk.
  destruct (decide (k = k')); [discriminate | eauto].
Qed.

Lemma allEntries_forEachZoomLevel_insert (Q : Z -> Z -> TileKeyEntry -> Prop)
    skip k e uz M :
  allEntries Q M -> (∀ z, z ∈ uz -> skip z = false -> Q z k e) ->
  allEntries Q (forEachZoomLevel skip (insert k e) uz M).
Proof.
  intros HM HQ z m k' e' Hz Hk.
  rewrite lookup_forEachZoomLevel in Hz by (intros; apply insert_idempotent).
  destruct (bool_decide (z ∈ uz)) eqn:Hin; [| eauto].
  destruct (skip z) eqn:Hs; [eauto |]. cbn in Hz.
  destruct (M !! z) as [m0 |] eqn:Hm0; [| discriminate].
  injection Hz as <-. rewrite lookup_insert in Hk.
  destruct (decide (k = k')) as [<- |]; [| eauto].
  injection Hk as <-. apply HQ; [| exact Hs].
  apply bool_decide_eq_true in Hin. exact Hin.
Qed.

Section Origin.
Context {Utils : TileOffsetUtils}.
Variable worldBox : GeoBox.
Variable ts : TilingScheme.t.
Variable zoomLevels : list Z.
Variable dataSources : list DataSource.t.
Variable uz : list Z.
Variable lod : bool.
Variable target : number.

Local Abbreviation body := (loopBody worldBox ts zoomLevels dataSources uz lod target).
Local Abbreviation origin := (originInv worldBox ts).

Lemma subTileEntry_fields c off :
  tileKey (subTileEntry ts c off) = c ∧ offset (subTileEntry ts c off) = off ∧
  area (subTileEntry ts c off) = Num 1 ∧ distance (subTileEntry ts c off) = 1%Q.
Proof. repeat split. Qed.

Lemma visitChild_cases off s c :
  (geoBoxesIntersect worldBox (getGeoBox ts c off) = false ∧
   visitChild worldBox ts uz off s c = s) ∨
  (geoBoxesIntersect worldBox (getGeoBox ts c off) = true ∧
   visitChild worldBox ts uz off s c =
     mkLoopState
       (forEachZoomLevel (fun zoomLevel => Z.of_nat (level c) >? zoomLevel)
          (insert (getKeyForTileKeyAndOffset c off) (subTileEntry ts c off))
          uz (entries s))
       (subTileEntry ts c off :: workList s)).
Proof.
  unfold visitChild.
  destruct (geoBoxesIntersect worldBox (getGeoBox ts c off)); [right | left];
    split; reflexivity.
Qed.

Lemma originInv_visitChild off s c :
  origin s -> origin (visitChild worldBox ts uz off s c).
Proof.
  intros [HM HW].
  destruct (visitChild_cases off s c) as [[_ ->] | [Hi ->]]; [split; assumption |].
  assert (Hsub : seeded (subTileEntry ts c off) ∨
                 builtAsChild worldBox ts (subTileEntry ts c off)).
  { right. repeat split. exact Hi. }
  split; cbn [entries workList].
  - apply allEntries_forEachZoomLevel_insert; [exact HM | intros; exact Hsub].
  - constructor; assumption.
Qed.

Lemma originInv_loopBody s : origin s -> origin (body s).
Proof.
  intros [HM HW]. destruct (workList s) as [| p rest] eqn:Hw.
  - unfold loopBody. rewrite Hw. split; [exact HM | rewrite Hw; exact HW].
  - rewrite (loopBody_descends _ _ _ _ _ _ _ s p rest Hw).
    apply Forall_cons in HW as [_ HW].
    destruct (descends _ _ _ _ p); [| split; assumption].
    generalize (TilingScheme.getSubTileKeys ts (tileKey p)). intros children.
    assert (H0 : origin
      (mkLoopState
         (forEachZoomLevel (fun zoomLevel => Z.of_nat (level (tileKey p)) >=? zoomLevel)
            (delete (getKeyForTileKeyAndOffset (tileKey p) (offset p))) uz (entries s))
         rest)).
    { split; [apply allEntries_forEachZoomLevel_delete; exact HM | exact HW]. }
    revert H0. generalize (mkLoopState
         (forEachZoomLevel (fun zoomLevel => Z.of_nat (level (tileKey p)) >=? zoomLevel)
            (delete (getKeyForTileKeyAndOffset (tileKey p) (offset p))) uz (entries s))
         rest).
    induction children as [| c children IH]; intros s0 H0; simpl; [exact H0 |].
    apply IH, originInv_visitChild, H0.
Qed.

Lemma originInv_initial this :
  Forall seeded (m_rootTileKeys this) ->
  origin (initialLoopState this zoomLevels).
Proof.
  intros Hroots. rewrite Forall_forall in Hroots. split; cbn [initialLoopState entries workList].
  - apply allEntries_seedRoots; [apply allEntries_createMaps |].
    intros item z Hitem _. left. split; [apply (Hroots _ Hitem) | reflexivity].
  - apply Forall_forall. intros w Hw. rewrite elem_of_reverse in Hw.
    left. apply (Hroots _ Hw).
Qed.
End Origin.

Lemma Reachable_roots_seeded {Utils : TileOffsetUtils} this :
  Reachable this -> Forall seeded (m_rootTileKeys this).
Proof.
  intros Hr. destruct (Reachable_roots this Hr) as [-> | ->].
  - constructor.
  - repeat constructor.
Qed.

(** ** The partition invariant *)

Lemma allEntries_mono (Q Q' : Z -> Z -> TileKeyEntry -> Prop) M :
  (∀ z k e, Q z k e -> Q' z k e) -> allEntries Q M -> allEntries Q' M.
Proof. intros HQ HM z m k e Hz Hk. eauto. Qed.

Lemma ancestor_level ts a d :
  childrenOneLevelDeeper ts -> ancestor ts a d -> (level a < level d)%nat.
Proof.
  intros Hl Ha. induction Ha as [p c Hc | a p c _ IH Hc].
  - rewrite (Hl _ _ Hc). lia.
  - rewrite (Hl _ _ Hc). lia.
Qed.

Lemma ancestor_of_child ts p c a :
  uniqueParent ts -> c ∈ TilingScheme.getSubTileKeys ts p ->
  ancestor ts a c -> a = p ∨ ancestor ts a p.
Proof.
  intros Hu Hc Ha. inversion Ha as [p' c' Hc' | a' p' c' Ha' Hc']; subst.
  - left. apply (Hu _ _ _ Hc' Hc).
  - right. rewrite <- (Hu _ _ _ Hc' Hc). exact Ha'.
Qed.

Section Partition.
Context {Utils : TileOffsetUtils}.
Variable worldBox : GeoBox.
Variable ts : TilingScheme.t.
Variable zoomLevels : list Z.
Variable dataSources : list DataSource.t.
Variable uz : list Z.
Variable lod : bool.
Variable target : number.
Hypothesis Hlevels : childrenOneLevelDeeper ts.
Hypothesis Hunique : uniqueParent ts.

Local Abbreviation body := (loopBody worldBox ts zoomLevels dataSources uz lod target).
Local Abbreviation inv := (partitionInv ts zoomLevels dataSources uz lod target).
Local Abbreviation placed := (wellPlaced ts zoomLevels dataSources lod target).
Local Abbreviation goesDown := (descendsKey zoomLevels dataSources lod target).

Lemma descends_descendsKey e :
  area e = areaAtLevel (level (tileKey e)) ->
  descends zoomLevels dataSources lod target e = goesDown (tileKey e).
Proof. intros He. unfold descendsKey, descends. cbn. rewrite He. reflexivity. Qed.

Lemma wellPlaced_subTileEntry p c off :
  c ∈ TilingScheme.getSubTileKeys ts (tileKey p) ->
  placed p -> goesDown (tileKey p) = true ->
  placed (subTileEntry ts c off).
Proof.
  intros Hc [_ Hanc] Hd. split; cbn.
  - rewrite (Hlevels _ _ Hc). reflexivity.
  - intros a Ha. destruct (ancestor_of_child ts _ _ _ Hunique Hc Ha) as [-> | Ha'];
      [exact Hd | apply Hanc, Ha'].
Qed.

Lemma partitionInv_visitChild p s c :
  c ∈ TilingScheme.getSubTileKeys ts (tileKey p) ->
  placed p -> goesDown (tileKey p) = true ->
  inv s -> inv (visitChild worldBox ts uz (offset p) s c).
Proof.
  intros Hc Hp Hd (H0 & H1 & H2 & H3).
  destruct (visitChild_cases worldBox ts uz (offset p) s c) as [[_ ->] | [_ ->]];
    [exact (conj H0 (conj H1 (conj H2 H3))) |].
  pose proof (wellPlaced_subTileEntry p c (offset p) Hc Hp Hd) as Hsub.
  split; [| split; [| split]]; cbn [entries workList].
  - intros z Hz. apply H0.
    rewrite lookup_forEachZoomLevel in Hz by (intros; apply insert_idempotent).
    destruct (_ && _); [rewrite fmap_is_Some in Hz |]; exact Hz.
  - apply allEntries_forEachZoomLevel_insert; [exact H1 |].
    intros z _ Hskip. split; [reflexivity |]. split; [| exact Hsub].
    right. cbn. rewrite Z.gtb_ltb, Z.ltb_ge in Hskip. exact Hskip.
  - apply allEntries_forEachZoomLevel_insert.
    + revert H2. apply allEntries_mono. intros z k e He Hlt Hgo.
      destruct (He Hlt Hgo) as (w & Hw & Hsame).
      exists w. split; [apply list_elem_of_further, Hw | exact Hsame].
    + intros z _ _ _ _. exists (subTileEntry ts c (offset p)).
      split; [apply list_elem_of_here | split; reflexivity].
  - constructor; assumption.
Qed.

Lemma partitionInv_children p children s :
  (∀ c, c ∈ children -> c ∈ TilingScheme.getSubTileKeys ts (tileKey p)) ->
  placed p -> goesDown (tileKey p) = true ->
  inv s -> inv (foldl (visitChild worldBox ts uz (offset p)) s children).
Proof.
  intros Hsub Hp Hd. revert s.
  induction children as [| c children IH]; intros s Hs; simpl; [exact Hs |].
  apply IH.
  - intros c' Hc'. apply Hsub, list_elem_of_further, Hc'.
  - apply partitionInv_visitChild; [apply Hsub, list_elem_of_here | | |]; assumption.
Qed.

(** Taking the popped entry out of the maps above its level. *)
Lemma partitionInv_delete p rest M :
  inv (mkLoopState M (p :: rest)) ->
  inv (mkLoopState
         (forEachZoomLevel (fun zoomLevel => Z.of_nat (level (tileKey p)) >=? zoomLevel)
            (delete (getKeyForTileKeyAndOffset (tileKey p) (offset p))) uz M)
         rest).
Proof.
  intros (H0 & H1 & H2 & H3). cbn [entries workList] in *.
  split; [| split; [| split]]; cbn [entries workList].
  - intros z Hz. apply H0.
    rewrite lookup_forEachZoomLevel in Hz by (intros; apply delete_idempotent).
    destruct (_ && _); [rewrite fmap_is_Some in Hz |]; exact Hz.
  - apply allEntries_forEachZoomLevel_delete, H1.
  - intros z m k e Hz Hk Hlt Hgo.
    rewrite lookup_forEachZoomLevel in Hz by (intros; apply delete_idempotent).
    assert (Hold : ∃ m0, M !! z = Some m0 ∧ m0 !! k = Some e ∧
              (Z.of_nat (level (tileKey p)) < z ->
               k ≠ getKeyForTileKeyAndOffset (tileKey p) (offset p))).
    { destruct (bool_decide (z ∈ uz)) eqn:Hin.
      - destruct (Z.of_nat (level (tileKey p)) >=? z) eqn:Hge; cbn in Hz.
        + exists m. split; [exact Hz |]. split; [exact Hk |].
          intros Hlt'. rewrite Z.geb_le in Hge. lia.
        + destruct (M !! z) as [m0 |] eqn:Hm0; [| discriminate].
          injection Hz as <-. rewrite lookup_delete in Hk.
          destruct (decide (getKeyForTileKeyAndOffset (tileKey p) (offset p) = k));
            [discriminate |].
          exists m0. split; [reflexivity |]. split; [exact Hk |]. congruence.
      - cbn in Hz. exists m. split; [exact Hz |]. split; [exact Hk |].
        intros _ Heq. apply bool_decide_eq_false in Hin. apply Hin, H0.
        rewrite Hz. eexists. reflexivity. }
    destruct Hold as (m0 & Hm0 & Hk0 & Hne).
    destruct (H2 z m0 k e Hm0 Hk0 Hlt Hgo) as (w & Hw & Htk & Hoff).
    apply elem_of_cons in Hw as [-> | Hw].
    + exfalso. destruct (H1 z m0 k e Hm0 Hk0) as (Hkey & _ & _).
      apply Hne; [rewrite Htk; exact Hlt |]. rewrite Hkey, Htk, Hoff. reflexivity.
    + exists w. split; [exact Hw | split; assumption].
  - apply Forall_cons in H3 as [_ H3]. exact H3.
Qed.

Lemma partitionInv_loopBody s : inv s -> inv (body s).
Proof.
  intros Hs. destruct s as [M W]. destruct W as [| p rest].
  - unfold loopBody. cbn. exact Hs.
  - rewrite (loopBody_descends _ _ _ _ _ _ _ (mkLoopState M (p :: rest)) p rest eq_refl).
    cbn [entries].
    pose proof Hs as (H0 & H1 & H2 & H3). cbn [entries workList] in *.
    pose proof (Forall_inv H3) as Hp.
    rewrite (descends_descendsKey p (proj1 Hp)).
    destruct (goesDown (tileKey p)) eqn:Hd.
    + apply partitionInv_children; [auto | exact Hp | exact Hd |].
      apply partitionInv_delete, Hs.
    + split; [exact H0 |]. split; [exact H1 |]. split; cbn [entries workList].
      * intros z m k e Hz Hk Hlt Hgo.
        destruct (H2 z m k e Hz Hk Hlt Hgo) as (w & Hw & Htk & Hoff).
        apply elem_of_cons in Hw as [-> | Hw]; [congruence |].
        exists w. split; [exact Hw | split; assumption].
      * apply Forall_cons in H3 as [_ H3]. exact H3.
Qed.

Lemma partitionInv_initial this :
  Forall seeded (m_rootTileKeys this) -> uz = newSet zoomLevels ->
  inv (initialLoopState this zoomLevels).
Proof.
  intros Hroots ->. rewrite Forall_forall in Hroots.
  assert (Hplaced : ∀ e, level (tileKey e) = 0%nat -> area e = Infinity -> placed e).
  { intros e Hl Ha. split; [rewrite Hl; exact Ha |].
    intros a Hanc. apply (ancestor_level _ _ _ Hlevels) in Hanc. lia. }
  split; [| split; [| split]]; cbn [initialLoopState entries workList].
  - intros z Hz. apply seedRoots_defined in Hz.
    rewrite lookup_createMaps in Hz.
    destruct (bool_decide (z ∈ newSet zoomLevels)) eqn:Hin;
      [apply bool_decide_eq_true in Hin; exact Hin | destruct Hz; discriminate].
  - apply allEntries_seedRoots; [apply allEntries_createMaps |].
    intros item z Hitem _. split; [reflexivity |].
    destruct (Hroots _ Hitem) as [Hl _].
    split; [left; exact Hl | apply Hplaced; [exact Hl | reflexivity]].
  - apply allEntries_seedRoots; [apply allEntries_createMaps |].
    intros item z Hitem _ _ _. exists item.
    split; [rewrite elem_of_reverse; exact Hitem | split; reflexivity].
  - apply Forall_forall. intros w Hw. rewrite elem_of_reverse in Hw.
    destruct (Hroots _ Hw). apply Hplaced; assumption.
Qed.

(** With an empty work list the invariant is the partition property. *)
Lemma partitionInv_final s z m :
  inv s -> workList s = [] -> entries s !! z = Some m -> noAncestorPair ts m.
Proof.
  intros (H0 & H1 & H2 & _) Hw Hz k1 e1 k2 e2 Hk1 Hk2 _ Hanc.
  destruct (H1 z m k2 e2 Hz Hk2) as (_ & Hlvl & _ & Hdown).
  pose proof (ancestor_level _ _ _ Hlevels Hanc) as Hlt.
  destruct (H2 z m k1 e1 Hz Hk1) as (w & Hin & _).
  - destruct Hlvl; lia.
  - apply Hdown, Hanc.
  - rewrite Hw in Hin. apply not_elem_of_nil in Hin. exact Hin.
Qed.
End Partition.

(** ** The concrete collaborators meet the contract of a tiling scheme *)

Lemma quadTree_childrenOneLevelDeeper : childrenOneLevelDeeper exampleTilingScheme.
Proof.
  intros p c Hc. cbn in Hc. unfold quadTreeSubTileKeys in Hc.
  repeat (apply elem_of_cons in Hc as [-> | Hc]; [reflexivity |]).
  apply not_elem_of_nil in Hc. destruct Hc.
Qed.

Lemma quadTree_uniqueParent : uniqueParent exampleTilingScheme.
Proof.
  intros [r1 c1 l1] [r2 c2 l2] c H1 H2. cbn in H1, H2.
  unfold quadTreeSubTileKeys in H1, H2. cbn [row column level] in H1, H2.
  repeat (apply elem_of_cons in H1 as [-> | H1];
          [repeat (apply elem_of_cons in H2 as [H2 | H2];
                   [injection H2 as ? ? ?; f_equal; lia |]);
           apply not_elem_of_nil in H2; destruct H2 |]).
  apply not_elem_of_nil in H1. destruct H1.
Qed.

Lemma Reachable_exampleView {Utils : TileOffsetUtils} : Reachable exampleView.
Proof. apply Reachable_updateFrustum, Reachable_new. Qed.

(** ** The results of [compute] *)

Section Results.
Context {Utils : TileOffsetUtils}.

Lemma compute_origin fuel this mapView ts ers zl ds r this' wb :
  Reachable this -> m_worldBox this = Some wb ->
  compute fuel this mapView ts ers zl ds = Done r this' ->
  allEntries (fun _ _ e => seeded e ∨ builtAsChild wb ts e) (tileKeyEntries r).
Proof.
  intros Hr Hwb Hc.
  apply compute_Done_inv in Hc as (_ & _ & [[Hnone _] | (wb' & s & Hwb' & Hrun & ->)]).
  - congruence.
  - assert (wb' = wb) as -> by congruence.
    apply whileLoop_reaches in Hrun as [Hreach _].
    apply (loopReaches_invariant _ _ _ _ _ _ _ (originInv wb ts) _ _) in Hreach.
    + apply Hreach.
    + apply originInv_initial, Reachable_roots_seeded, Hr.
    + intros x Hx _. apply originInv_loopBody, Hx.
Qed.

(** C1: after a completed [compute] on a tiling scheme that is a tree, no
    zoom-level map of the result holds two entries with the same offset whose
    tile keys are an ancestor and a descendant. *)
Theorem compute_partition_invariant fuel this mapView ts ers zl ds r this' :
  Reachable this ->
  childrenOneLevelDeeper ts -> uniqueParent ts ->
  compute fuel this mapView ts ers zl ds = Done r this' ->
  ∀ z m, tileKeyEntries r !! z = Some m -> noAncestorPair ts m.
Proof.
  intros Hr Hlevels Hunique Hc z m Hz.
  apply compute_Done_inv in Hc as (_ & _ & [[_ Hempty] | (wb & s & _ & Hrun & Hs)]).
  - rewrite Hempty, lookup_empty in Hz. discriminate.
  - apply whileLoop_reaches in Hrun as [Hreach Hdone].
    rewrite Hs in Hz.
    eapply (partitionInv_final ts zl ds (newSet zl) _ _ Hlevels s z m);
      [| exact Hdone | exact Hz].
    eapply loopReaches_invariant; [| | exact Hreach].
    + apply partitionInv_initial;
        [exact Hlevels | apply Reachable_roots_seeded, Hr | reflexivity].
    + intros x Hx _. apply partitionInv_loopBody; assumption.
Qed.
End Results.

Lemma compute_partition_invariant_witness :
  ∃ r this' m,
    compute (Utils := exampleUtils) 10 exampleView (exampleMapView None 512)
      exampleTilingScheme None [2] [levelDataSource] = Done r this' ∧
    tileKeyEntries r !! 2 = Some m ∧
    m !! 26 = Some (mkTileKeyEntry (mkTileKey 2 2 2) (Num 1) 0 0 0 1) ∧
    m !! 30 = Some (mkTileKeyEntry (mkTileKey 3 2 2) (Num 1) 0 0 0 1) ∧
    noAncestorPair exampleTilingScheme m.
Proof.
  eexists _, _, _.
  split; [vm_compute; reflexivity |].
  split; [vm_compute; reflexivity |].
  split; [vm_compute; reflexivity |].
  split; [vm_compute; reflexivity |].
  eapply (compute_partition_invariant (Utils := exampleUtils) 10 exampleView
            (exampleMapView None 512) exampleTilingScheme None [2] [levelDataSource])
    with (z := 2).
  - apply Reachable_exampleView.
  - apply quadTree_childrenOneLevelDeeper.
  - apply quadTree_uniqueParent.
  - vm_compute. reflexivity.
  - vm_compute. reflexivity.
Defined.

Section MoreResults.
Context {Utils : TileOffsetUtils}.

(** C7: a child whose shifted geo box fails the epsilon test against the
    world box is never on the work list and never in a zoom-level map,
    neither during the traversal nor in the result of [compute]. *)
Theorem pruned_child_never_materialized this mapView ts zl ds wb p c off :
  Reachable this ->
  childrenOneLevelDeeper ts ->
  m_worldBox this = Some wb ->
  c ∈ TilingScheme.getSubTileKeys ts p ->
  geoBoxesIntersect wb (getGeoBox ts c off) = false ->
  (∀ s,
     loopReaches wb ts zl ds (newSet zl) (m_enableMixedLod this)
       (targetTileAreaOf (MapView.viewportHeight mapView))
       (initialLoopState this zl) s ->
     absentFrom (entries s) c off ∧
     ∀ w, w ∈ workList s -> ¬ (tileKey w = c ∧ offset w = off)) ∧
  (∀ fuel ers r this',
     compute fuel this mapView ts ers zl ds = Done r this' ->
     absentFrom (tileKeyEntries r) c off).
Proof.
  intros Hr Hlevels Hwb Hc Hout.
  assert (Hnot : ∀ e, seeded e ∨ builtAsChild wb ts e ->
                      ¬ (tileKey e = c ∧ offset e = off)).
  { intros e [[Hl _] | (_ & _ & Hin)] [Hk Ho].
    - rewrite Hk, (Hlevels _ _ Hc) in Hl. discriminate.
    - rewrite Hk, Ho in Hin. congruence. }
  split.
  - intros s Hreach.
    apply (loopReaches_invariant _ _ _ _ _ _ _ (originInv wb ts) _ _) in Hreach.
    + destruct Hreach as [HM HW]. split.
      * revert HM. apply allEntries_mono. intros _ _ e. apply Hnot.
      * intros w Hw. rewrite Forall_forall in HW. apply Hnot, HW, Hw.
    + apply originInv_initial, Reachable_roots_seeded, Hr.
    + intros x Hx _. apply originInv_loopBody, Hx.
  - intros fuel ers r this' Hcomp.
    pose proof (compute_origin _ _ _ _ _ _ _ _ _ _ Hr Hwb Hcomp) as HM.
    revert HM. apply allEntries_mono. intros _ _ e. apply Hnot.
Qed.

(** C6: with mixed LOD enabled, a popped entry whose area is below the target
    tile area [(256 / viewportHeight)^2] leaves the maps as they are and
    pushes nothing, whatever the data sources answer. *)
Theorem mixed_lod_stops_below_target_area wb ts zl ds uz viewportHeight s
    tileEntry rest :
  workList s = tileEntry :: rest ->
  numLt (area tileEntry) (targetTileAreaOf viewportHeight) = true ->
  loopBody wb ts zl ds uz true (targetTileAreaOf viewportHeight) s
  = mkLoopState (entries s) rest.
Proof.
  intros Hw Harea. unfold loopBody. rewrite Hw.
  destruct (someShouldSubdivide zl (tileKey tileEntry) 0 ds); cbn [negb];
    [| reflexivity].
  rewrite Harea. reflexivity.
Qed.

(** C10: whenever [compute] returns, [calculationFinal] is [true]. *)
Theorem compute_calculationFinal fuel this mapView ts ers zl ds r this' :
  compute fuel this mapView ts ers zl ds = Done r this' ->
  calculationFinal r = true.
Proof. intros Hc. apply compute_Done_inv in Hc as (Hf & _). exact Hf. Qed.

(** C2 (amended): without a world box [compute] returns at once, with no
    zoom-level map at all and [calculationFinal = true]; with a zero-area
    world box, whenever it returns, [calculationFinal] is [true]. *)
Theorem compute_without_world_box fuel this mapView ts ers zl ds :
  (m_worldBox this = None ->
   compute fuel this mapView ts ers zl ds
   = Done (mkIntersectionResult ∅ true) (setTileKeyEntries this ∅)) ∧
  (∀ wb r this',
     m_worldBox this = Some wb ->
     (west wb == east wb ∨ south wb == north wb)%Q ->
     compute fuel this mapView ts ers zl ds = Done r this' ->
     calculationFinal r = true).
Proof.
  split.
  - intros Hwb. unfold compute. cbn. rewrite Hwb. reflexivity.
  - intros wb r this' _ _ Hc.
    apply compute_Done_inv in Hc as (Hf & _). exact Hf.
Qed.

(** C9: a second [compute] with the same arguments, with no [updateFrustum]
    in between, returns what the first returned; it needs no more fuel than
    the first, and leaves the receiver as the first left it.  (The result
    holds the receiver's own map object: the second call clears it and fills
    it with the same entries.) *)
Theorem compute_twice_same_result fuel this mapView ts ers zl ds r this' :
  compute fuel this mapView ts ers zl ds = Done r this' ->
  compute fuel this' mapView ts ers zl ds = Done r this' ∧
  ∀ fuel2 r2 this2,
    compute fuel2 this' mapView ts ers zl ds = Done r2 this2 -> r2 = r.
Proof.
  intros Hc.
  pose proof (compute_Done_inv _ _ _ _ _ _ _ _ _ Hc) as (_ & Hthis & _).
  assert (Hsame : ∀ f, compute f this' mapView ts ers zl ds
                       = compute f this mapView ts ers zl ds).
  { intros f. rewrite Hthis. reflexivity. }
  split.
  - rewrite Hsame. exact Hc.
  - intros fuel2 r2 this2 Hc2. rewrite Hsame in Hc2.
    apply compute_Done_inv in Hc as (Hf & _ & Hcase).
    apply compute_Done_inv in Hc2 as (Hf2 & _ & Hcase2).
    destruct r as [M f], r2 as [M2 f2]. cbn in *. subst f f2. f_equal.
    destruct Hcase as [[Hnone ->] | (wb & s & Hwb & Hrun & ->)];
      destruct Hcase2 as [[Hnone2 ->] | (wb2 & s2 & Hwb2 & Hrun2 & ->)];
      try congruence.
    assert (wb2 = wb) as -> by congruence.
    rewrite (whileLoop_fuel_irrelevant _ _ _ _ _ _ _ _ _ _ _ _ Hrun Hrun2).
    reflexivity.
Qed.
End MoreResults.

(** ** Root seeding *)

Section Seeding.
Context {Utils : TileOffsetUtils}.

Lemma lookup_seedRoots_single uz item z :
  z ∈ uz ->
  seedRoots uz [item] (createMaps uz) !! z
  = Some {[ getKeyForTileKeyAndOffset (tileKey item) (offset item) := rootMapEntry item ]}.
Proof.
  intros Hz. unfold seedRoots. cbn [foldl].
  rewrite lookup_forEachZoomLevel by (intros; apply insert_idempotent).
  rewrite bool_decide_eq_true_2 by exact Hz. cbn [negb andb].
  rewrite lookup_createMaps, bool_decide_eq_true_2 by exact Hz.
  reflexivity.
Qed.

(** C8: with wraparound disabled, or a projection that is not planar,
    [updateFrustum] seeds exactly one root entry (level 0, offset 0, infinite
    area, zero elevation range); a following [compute] on a viewport of
    non-zero height, with no data source asking to subdivide the root,
    returns after one round of its loop with that entry in the map of every
    requested zoom level. *)
Theorem root_seeding_without_wraparound this mapView camera override :
  m_tileWrappingEnabled this = false ∨ MapView.projectionType mapView ≠ Planar ->
  m_rootTileKeys (updateFrustum this mapView camera override)
  = [mkTileKeyEntry (fromRowColumnLevel 0 0 0) Infinity 0 0%Q 0%Q 0%Q] ∧
  ∀ fuel mapView' ts ers zl ds,
    (1 <= fuel)%nat ->
    ¬ (MapView.viewportHeight mapView' == 0)%Q ->
    someShouldSubdivide zl rootTileKey 0 ds = false ->
    ∃ r this',
      compute fuel (updateFrustum this mapView camera override) mapView' ts ers zl ds
      = Done r this' ∧
      ∀ z, z ∈ zl ->
        ∃ m, tileKeyEntries r !! z = Some m ∧
             m !! getKeyForTileKeyAndOffset rootTileKey 0 = Some rootEntry.
Proof.
  intros _.
  assert (Hroots : m_rootTileKeys (updateFrustum this mapView camera override)
                   = [rootEntry]).
  { unfold updateFrustum, computeRequiredInitialRootTileKeys. cbn.
    destruct (_ || _); reflexivity. }
  split; [exact Hroots |].
  intros fuel mapView' ts ers zl ds Hfuel Hheight Hstop.
  destruct fuel as [| fuel]; [lia |].
  unfold compute.
  assert (Hwb : ∃ wb, m_worldBox
    (setTileKeyEntries (updateFrustum this mapView camera override) ∅) = Some wb).
  { cbn. eexists. reflexivity. }
  destruct Hwb as [wb ->].
  destruct (Qeq_bool (MapView.viewportHeight mapView') 0) eqn:Hq;
    [apply Qeq_bool_iff in Hq; contradiction |].
  unfold initialLoopState.
  change (m_rootTileKeys (setTileKeyEntries (updateFrustum this mapView camera override) ∅))
    with (m_rootTileKeys (updateFrustum this mapView camera override)).
  rewrite Hroots. cbn [whileLoop workList reverse rev_append].
  unfold loopBody at 1. cbn [workList tileKey rootEntry].
  rewrite Hstop. cbn [negb entries].
  assert (Hend : ∀ f M,
    whileLoop wb ts zl ds (newSet zl)
      (m_enableMixedLod (setTileKeyEntries (updateFrustum this mapView camera override) ∅))
      (targetTileAreaOf (MapView.viewportHeight mapView')) f (mkLoopState M [])
    = Some (mkLoopState M [])).
  { intros [| f] M; reflexivity. }
  rewrite Hend. eexists _, _. split; [reflexivity |].
  intros z Hz. cbn [tileKeyEntries entries].
  rewrite lookup_seedRoots_single by (apply elem_of_newSet, Hz).
  eexists. split; [reflexivity |]. apply lookup_singleton_eq.
Qed.
End Seeding.

(** ** Area and distance of a child entry *)

Lemma compute_ignores_matrix {Utils : TileOffsetUtils} fuel this M mapView ts ers zl ds :
  compute fuel (withViewProjectionMatrix this M) mapView ts ers zl ds
  = mapOutcome (fun t => withViewProjectionMatrix t M)
      (compute fuel this mapView ts ers zl ds).
Proof.
  unfold compute. cbn [withViewProjectionMatrix setTileKeyEntries m_worldBox
                       m_enableMixedLod m_tileWrappingEnabled m_rootTileKeys
                       m_viewProjectionMatrix m_tileKeyEntries].
  destruct (m_worldBox this) as [wb |]; [| reflexivity].
  destruct (Qeq_bool _ _); [reflexivity |].
  unfold initialLoopState. cbn [m_rootTileKeys].
  destruct (whileLoop _ _ _ _ _ _ _ _ _); reflexivity.
Qed.

(** C3: the entry of a surviving child carries the constants [area = 1] and
    [distance = 1] of lines 233-234, whatever the tile, its bounding volume
    and the view-projection matrix: [compute] does not read the matrix, and
    two views of the same world box under different cameras give the same
    entry for tile (2, 2, 2). *)
Theorem child_area_and_distance_are_constants :
  (∀ ts c off,
     area (subTileEntry ts c off) = Num 1 ∧
     distance (subTileEntry ts c off) = 1%Q) ∧
  (∀ (Utils : TileOffsetUtils) fuel this M mapView ts ers zl ds,
     compute fuel (withViewProjectionMatrix this M) mapView ts ers zl ds
     = mapOutcome (fun t => withViewProjectionMatrix t M)
         (compute fuel this mapView ts ers zl ds)) ∧
  m_viewProjectionMatrix exampleView ≠ m_viewProjectionMatrix scaledView ∧
  (∀ view, view = exampleView ∨ view = scaledView ->
     ∃ r this' m,
       compute (Utils := exampleUtils) 10 view (exampleMapView None 512)
         exampleTilingScheme None [2] [levelDataSource] = Done r this' ∧
       tileKeyEntries r !! 2 = Some m ∧
       m !! 26 = Some (mkTileKeyEntry (mkTileKey 2 2 2) (Num 1) 0 0 0 1)).
Proof.
  split; [intros; split; reflexivity |].
  split; [intros; apply compute_ignores_matrix |].
  split; [vm_compute; discriminate |].
  intros view [-> | ->]; eexists _, _, _;
    (split; [vm_compute; reflexivity |]);
    (split; vm_compute; reflexivity).
Qed.

Lemma child_area_and_distance_are_constants_witness :
  ∃ r this' m,
    compute (Utils := exampleUtils) 10 scaledView (exampleMapView None 512)
      exampleTilingScheme None [2] [levelDataSource] = Done r this' ∧
    tileKeyEntries r !! 2 = Some m ∧
    m !! 26 = Some (mkTileKeyEntry (mkTileKey 2 2 2) (Num 1) 0 0 0 1).
Proof.
  destruct child_area_and_distance_are_constants as (_ & _ & _ & Hrun).
  apply (Hrun scaledView). right. reflexivity.
Defined.

(** ** Runs on concrete inputs *)

(** C2, as stated, fails for a degenerate world box: with the zero box that
    [updateFrustum] stores for a view without geo box, [compute] seeds the
    root and returns it in the map of zoom level 1. *)
Lemma compute_degenerate_world_box_keeps_root :
  m_worldBox degenerateView = Some zeroGeoBox ∧
  (west zeroGeoBox == east zeroGeoBox)%Q ∧
  (south zeroGeoBox == north zeroGeoBox)%Q ∧
  ∃ r this' m,
    compute (Utils := exampleUtils) 1 degenerateView (exampleMapView None 512)
      exampleTilingScheme None [1] [] = Done r this' ∧
    tileKeyEntries r !! 1 = Some m ∧
    m !! exampleKey rootTileKey 0 = Some rootEntry ∧
    m ≠ ∅.
Proof.
  split; [reflexivity |]. split; [reflexivity |]. split; [reflexivity |].
  eexists _, _, _. split; [vm_compute; reflexivity |].
  split; [vm_compute; reflexivity |].
  split; [vm_compute; reflexivity |].
  intros Hempty. apply (f_equal (fun m => m !! exampleKey rootTileKey 0)) in Hempty.
  vm_compute in Hempty. discriminate.
Qed.

Lemma compute_without_world_box_witness :
  compute (Utils := exampleUtils) 0 (newViewIntersection false true)
    (exampleMapView None 512) exampleTilingScheme None [1; 2] [levelDataSource]
  = Done (mkIntersectionResult ∅ true)
         (setTileKeyEntries (newViewIntersection false true) ∅) ∧
  ∃ r this',
    compute (Utils := exampleUtils) 1 degenerateView (exampleMapView None 512)
      exampleTilingScheme None [1] [] = Done r this' ∧
    calculationFinal r = true.
Proof.
  split.
  - apply (compute_without_world_box (Utils := exampleUtils) 0
             (newViewIntersection false true)).
    reflexivity.
  - eexists _, _. split; [vm_compute; reflexivity |].
    eapply (compute_without_world_box (Utils := exampleUtils) 1 degenerateView
              (exampleMapView None 512) exampleTilingScheme None [1] []).
    + reflexivity.
    + left. reflexivity.
    + vm_compute. reflexivity.
Defined.

Lemma pruned_child_never_materialized_witness :
  mkTileKey 0 0 1 ∈ TilingScheme.getSubTileKeys exampleTilingScheme rootTileKey ∧
  geoBoxesIntersect (boxOf 10 10 50 50)
    (getGeoBox exampleTilingScheme (mkTileKey 0 0 1) 0) = false ∧
  ∃ r this',
    compute (Utils := exampleUtils) 10 exampleView (exampleMapView None 512)
      exampleTilingScheme None [2] [levelDataSource] = Done r this' ∧
    absentFrom (tileKeyEntries r) (mkTileKey 0 0 1) 0.
Proof.
  assert (Hc : mkTileKey 0 0 1
               ∈ TilingScheme.getSubTileKeys exampleTilingScheme rootTileKey).
  { apply list_elem_of_here. }
  split; [exact Hc |]. split; [reflexivity |].
  eexists _, _. split; [vm_compute; reflexivity |].
  destruct (pruned_child_never_materialized (Utils := exampleUtils) exampleView
              (exampleMapView None 512) exampleTilingScheme [2] [levelDataSource]
              (boxOf 10 10 50 50) rootTileKey (mkTileKey 0 0 1) 0)
    as [_ Hresult].
  - apply Reachable_exampleView.
  - apply quadTree_childrenOneLevelDeeper.
  - reflexivity.
  - exact Hc.
  - reflexivity.
  - eapply (Hresult 10%nat None). vm_compute. reflexivity.
Defined.

Lemma mixed_lod_stops_below_target_area_witness :
  someShouldSubdivide [5] (tileKey smallCandidate) 0 [eagerDataSource] = true ∧
  (∃ q, targetTileAreaOf 512 = Num q ∧ (q == 1 # 4)%Q) ∧
  loopBody (Utils := exampleUtils) (boxOf 10 10 50 50) exampleTilingScheme
    [5] [eagerDataSource] [5] true (targetTileAreaOf 512)
    (mkLoopState ∅ [smallCandidate; rootEntry])
  = mkLoopState ∅ [rootEntry].
Proof.
  split; [reflexivity |].
  split; [eexists; split; reflexivity |].
  apply (mixed_lod_stops_below_target_area (Utils := exampleUtils)
           (boxOf 10 10 50 50) exampleTilingScheme [5] [eagerDataSource] [5] 512
           (mkLoopState ∅ [smallCandidate; rootEntry]) smallCandidate [rootEntry]).
  - reflexivity.
  - reflexivity.
Defined.

Lemma compute_calculationFinal_witness :
  ∃ r this',
    compute (Utils := exampleUtils) 10 exampleView (exampleMapView None 512)
      exampleTilingScheme (Some (ElevationRangeSource.mk exampleTilingScheme))
      [2] [levelDataSource] = Done r this' ∧
    calculationFinal r = true.
Proof.
  eexists _, _. split; [vm_compute; reflexivity |].
  eapply (compute_calculationFinal (Utils := exampleUtils) 10 exampleView
            (exampleMapView None 512) exampleTilingScheme
            (Some (ElevationRangeSource.mk exampleTilingScheme)) [2] [levelDataSource]).
  vm_compute. reflexivity.
Defined.

Lemma compute_twice_same_result_witness :
  ∃ r this',
    compute (Utils := exampleUtils) 10 exampleView (exampleMapView None 512)
      exampleTilingScheme None [1; 2] [levelDataSource; levelDataSource]
    = Done r this' ∧
    compute (Utils := exampleUtils) 10 this' (exampleMapView None 512)
      exampleTilingScheme None [1; 2] [levelDataSource; levelDataSource]
    = Done r this'.
Proof.
  eexists _, _. split; [vm_compute; reflexivity |].
  apply (compute_twice_same_result (Utils := exampleUtils) 10 exampleView
           (exampleMapView None 512) exampleTilingScheme None [1; 2]
           [levelDataSource; levelDataSource]).
  vm_compute. reflexivity.
Defined.

Lemma root_seeding_without_wraparound_witness :
  m_rootTileKeys
    (updateFrustum (newViewIntersection false false)
       (exampleMapView (Some (boxOf 10 10 50 50)) 512) exampleCamera None)
  = [mkTileKeyEntry (fromRowColumnLevel 0 0 0) Infinity 0 0%Q 0%Q 0%Q] ∧
  ∃ r this',
    compute (Utils := exampleUtils) 1
      (updateFrustum (newViewIntersection false false)
         (exampleMapView (Some (boxOf 10 10 50 50)) 512) exampleCamera None)
      (exampleMapView None 512) exampleTilingScheme None [0; 3] [levelDataSource]
    = Done r this' ∧
    ∀ z, z ∈ [0; 3] ->
      ∃ m, tileKeyEntries r !! z = Some m ∧
           m !! exampleKey rootTileKey 0 = Some rootEntry.
Proof.
  destruct (root_seeding_without_wraparound (Utils := exampleUtils)
              (newViewIntersection false false)
              (exampleMapView (Some (boxOf 10 10 50 50)) 512) exampleCamera None)
    as [Hroots Hrun].
  - left. reflexivity.
  - split; [exact Hroots |].
    apply (Hrun 1%nat (exampleMapView None 512) exampleTilingScheme None [0; 3]
             [levelDataSource]).
    + lia.
    + discriminate.
    + reflexivity.
Defined.

(** The scenario of the specification: viewport height 512, one data source
    that subdivides down to level 2, mixed LOD off, the whole globe in view,
    zoom level 2.  The map of zoom level 2 holds the sixteen tiles of level 2
    and nothing of the levels above. *)
Example compute_globe_at_zoom_level_2 :
  ∃ r this' m,
    compute (Utils := exampleUtils) 21 globeView (exampleMapView None 512)
      exampleTilingScheme None [2] [levelDataSource] = Done r this' ∧
    tileKeyEntries r !! 2 = Some m ∧
    size m = 16%nat ∧
    forallb (fun ke => Nat.eqb (level (tileKey ke.2)) 2) (map_to_list m) = true.
Proof.
  eexists _, _, _. split; [vm_compute; reflexivity |].
  split; [vm_compute; reflexivity |].
  split; vm_compute; reflexivity.
Qed.

(** Three zoom levels at once: each map stops at its own level. *)
Example compute_globe_at_zoom_levels_0_1_2 :
  ∃ r this',
    compute (Utils := exampleUtils) 21 globeView (exampleMapView None 512)
      exampleTilingScheme None [0; 1; 2]
      [levelDataSource; levelDataSource; levelDataSource] = Done r this' ∧
    (size <$> tileKeyEntries r !! 0) = Some 1%nat ∧
    (size <$> tileKeyEntries r !! 1) = Some 4%nat ∧
    (size <$> tileKeyEntries r !! 2) = Some 16%nat.
Proof.
  eexists _, _. split; [vm_compute; reflexivity |].
  repeat split; vm_compute; reflexivity.
Qed.

(** * Further properties of the traversal *)

(** ** Invariants of one round, for any property of the entries *)

Section Rounds.
Context {Utils : TileOffsetUtils}.
Variable worldBox : GeoBox.
Variable ts : TilingScheme.t.
Variable zoomLevels : list Z.
Variable dataSources : list DataSource.t.
Variable uz : list Z.
Variable lod : bool.
Variable target : number.

Local Abbreviation body := (loopBody worldBox ts zoomLevels dataSources uz lod target).

(** A property that holds of the seeded entries and passes from a descending
    entry to its surviving children holds of all entries. *)
Lemma entries_invariant_loopBody (G : TileKeyEntry -> Prop) s :
  (∀ p c, G p -> descends zoomLevels dataSources lod target p = true ->
          c ∈ TilingScheme.getSubTileKeys ts (tileKey p) ->
          geoBoxesIntersect worldBox (getGeoBox ts c (offset p)) = true ->
          G (subTileEntry ts c (offset p))) ->
  allEntries (fun _ _ e => G e) (entries s) ∧ Forall G (workList s) ->
  allEntries (fun _ _ e => G e) (entries (body s)) ∧ Forall G (workList (body s)).
Proof.
  intros Hstep [HM HW]. destruct s as [M W]. destruct W as [| p rest].
  - unfold loopBody. cbn. split; assumption.
  - rewrite (loopBody_descends _ _ _ _ _ _ _ (mkLoopState M (p :: rest)) p rest eq_refl).
    cbn [entries workList] in *.
    apply Forall_cons in HW as [Hp HW].
    destruct (descends zoomLevels dataSources lod target p) eqn:Hd;
      [| split; assumption].
    assert (Hfold : ∀ cs s0,
      (∀ c, c ∈ cs -> c ∈ TilingScheme.getSubTileKeys ts (tileKey p)) ->
      allEntries (fun _ _ e => G e) (entries s0) ∧ Forall G (workList s0) ->
      allEntries (fun _ _ e => G e)
        (entries (foldl (visitChild worldBox ts uz (offset p)) s0 cs)) ∧
      Forall G (workList (foldl (visitChild worldBox ts uz (offset p)) s0 cs))).
    { induction cs as [| c cs IH]; intros s0 Hcs Hs0; cbn [foldl]; [exact Hs0 |].
      apply IH; [intros c' Hc'; apply Hcs, list_elem_of_further, Hc' |].
      destruct Hs0 as [HM0 HW0].
      destruct (visitChild_cases worldBox ts uz (offset p) s0 c)
        as [[_ ->] | [Hi ->]]; [split; assumption |].
      assert (Hsub : G (subTileEntry ts c (offset p))).
      { apply Hstep; [exact Hp | exact Hd | apply Hcs, list_elem_of_here | exact Hi]. }
      split; cbn [entries workList].
      - apply allEntries_forEachZoomLevel_insert; [exact HM0 | intros; exact Hsub].
      - constructor; assumption. }
    apply Hfold; [auto |]. cbn [entries workList].
    split; [apply allEntries_forEachZoomLevel_delete; exact HM | exact HW].
Qed.

(** A round creates and removes no zoom-level map. *)
Lemma visitChild_defined off s c z :
  is_Some (entries (visitChild worldBox ts uz off s c) !! z) <-> is_Some (entries s !! z).
Proof.
  destruct (visitChild_cases worldBox ts uz off s c) as [[_ ->] | [_ ->]];
    [reflexivity |].
  cbn [entries].
  rewrite lookup_forEachZoomLevel by (intros; apply insert_idempotent).
  destruct (_ && _); [apply fmap_is_Some | reflexivity].
Qed.

Lemma loopBody_defined s z :
  is_Some (entries (body s) !! z) <-> is_Some (entries s !! z).
Proof.
  destruct s as [M W]. destruct W as [| p rest].
  - unfold loopBody. cbn. reflexivity.
  - rewrite (loopBody_descends _ _ _ _ _ _ _ (mkLoopState M (p :: rest)) p rest eq_refl).
    cbn [entries workList].
    destruct (descends zoomLevels dataSources lod target p); [| reflexivity].
    assert (Hfold : ∀ cs s0,
      is_Some (entries (foldl (visitChild worldBox ts uz (offset p)) s0 cs) !! z)
      <-> is_Some (entries s0 !! z)).
    { induction cs as [| c cs IH]; intros s0; cbn [foldl]; [reflexivity |].
      rewrite IH. apply visitChild_defined. }
    rewrite Hfold. cbn [entries].
    rewrite lookup_forEachZoomLevel by (intros; apply delete_idempotent).
    destruct (_ && _); [apply fmap_is_Some | reflexivity].
Qed.
End Rounds.

(** ** The receiver between calls *)

Lemma Reachable_state {Utils : TileOffsetUtils} this :
  Reachable this ->
  (m_worldBox this = None ∧ m_rootTileKeys this = []) ∨
  (∃ wb, m_worldBox this = Some wb ∧ m_rootTileKeys this = [rootEntry]).
Proof.
  induction 1 as [wrap lod | this mapView camera override _ _
                 | this fuel mapView ts ers zl ds r this' _ IH Hc
                 | this fuel mapView ts ers zl ds this' _ IH Hc].
  - left. split; reflexivity.
  - right. unfold updateFrustum, computeRequiredInitialRootTileKeys. cbn.
    eexists. split; [reflexivity |]. destruct (_ || _); reflexivity.
  - apply compute_Done_inv in Hc as (_ & -> & _). exact IH.
  - unfold compute in Hc. cbn in Hc.
    destruct (m_worldBox this) eqn:Hwb; [| discriminate].
    destruct (Qeq_bool _ _).
    + injection Hc as <-. cbn. rewrite Hwb. exact IH.
    + destruct (whileLoop _ _ _ _ _ _ _ _ _); discriminate.
Qed.

(** ** The zoom-level maps of the result *)

Section ZoomLevels.
Context {Utils : TileOffsetUtils}.

Lemma initialLoopState_defined this zl z :
  is_Some (entries (initialLoopState this zl) !! z) <-> z ∈ zl.
Proof.
  cbn [initialLoopState entries].
  etransitivity; [apply seedRoots_defined |].
  rewrite lookup_createMaps.
  etransitivity; [| apply elem_of_newSet].
  destruct (bool_decide (z ∈ newSet zl)) eqn:Hin.
  - apply bool_decide_eq_true in Hin. split; [intros _; exact Hin | eauto].
  - apply bool_decide_eq_false in Hin. split; [intros [? ?]; discriminate | tauto].
Qed.

(** With a world box, the result holds one map for every requested zoom
    level, also for a level requested twice or below zero, and no other
    map. *)
Theorem compute_one_map_per_zoom_level fuel this mapView ts ers zl ds r this' wb :
  m_worldBox this = Some wb ->
  compute fuel this mapView ts ers zl ds = Done r this' ->
  ∀ z, is_Some (tileKeyEntries r !! z) <-> z ∈ zl.
Proof.
  intros Hwb Hc z.
  apply compute_Done_inv in Hc as (_ & _ & [[Hnone _] | (wb' & s & _ & Hrun & ->)]);
    [congruence |].
  apply whileLoop_reaches in Hrun as [Hreach _].
  apply (loopReaches_invariant _ _ _ _ _ _ _
           (fun s => is_Some (entries s !! z) <-> z ∈ zl) _ _) in Hreach.
  - exact Hreach.
  - apply initialLoopState_defined.
  - intros x Hx _. etransitivity; [apply loopBody_defined | exact Hx].
Qed.

Lemma loopBody_low_zoom_level wb ts zl ds uz lod target s z :
  childrenOneLevelDeeper ts -> z <= 0 ->
  entries (loopBody wb ts zl ds uz lod target s) !! z = entries s !! z.
Proof.
  intros Hlevels Hz. destruct s as [M W]. destruct W as [| p rest].
  - unfold loopBody. cbn. reflexivity.
  - rewrite (loopBody_descends _ _ _ _ _ _ _ (mkLoopState M (p :: rest)) p rest eq_refl).
    cbn [entries workList].
    destruct (descends zl ds lod target p); [| reflexivity].
    assert (Hfold : ∀ cs s0,
      (∀ c, c ∈ cs -> c ∈ TilingScheme.getSubTileKeys ts (tileKey p)) ->
      entries (foldl (visitChild wb ts uz (offset p)) s0 cs) !! z = entries s0 !! z).
    { induction cs as [| c cs IH]; intros s0 Hcs; cbn [foldl]; [reflexivity |].
      rewrite IH by (intros c' Hc'; apply Hcs, list_elem_of_further, Hc').
      destruct (visitChild_cases wb ts uz (offset p) s0 c) as [[_ ->] | [_ ->]];
        [reflexivity |].
      cbn [entries].
      rewrite lookup_forEachZoomLevel by (intros; apply insert_idempotent).
      rewrite (Hlevels _ _ (Hcs c (list_elem_of_here _ _))).
      replace (Z.of_nat (S (level (tileKey p))) >? z) with true
        by (symmetry; apply Z.gtb_lt; lia).
      rewrite andb_false_r. reflexivity. }
    rewrite Hfold by auto. cbn [entries].
    rewrite lookup_forEachZoomLevel by (intros; apply delete_idempotent).
    replace (Z.of_nat (level (tileKey p)) >=? z) with true
      by (symmetry; apply Z.geb_le; lia).
    rewrite andb_false_r. reflexivity.
Qed.

(** The map of a requested zoom level 0, or below, is the seeded root alone,
    whatever the data sources and the world box: the root is never taken out
    of it and no sub tile is put in. *)
Theorem compute_root_only_at_zoom_level_0 fuel this mapView ts ers zl ds r this' wb z :
  Reachable this ->
  childrenOneLevelDeeper ts ->
  m_worldBox this = Some wb ->
  compute fuel this mapView ts ers zl ds = Done r this' ->
  z ∈ zl -> z <= 0 ->
  tileKeyEntries r !! z
  = Some {[ getKeyForTileKeyAndOffset rootTileKey 0 := rootEntry ]}.
Proof.
  intros Hr Hlevels Hwb Hc Hz Hlow.
  destruct (Reachable_state this Hr) as [[Hnone _] | (wb' & _ & Hroots)];
    [congruence |].
  apply compute_Done_inv in Hc as (_ & _ & [[Hnone _] | (wb'' & s & _ & Hrun & ->)]);
    [congruence |].
  apply whileLoop_reaches in Hrun as [Hreach _].
  apply (loopReaches_invariant _ _ _ _ _ _ _
           (fun s => entries s !! z
                     = Some {[ getKeyForTileKeyAndOffset rootTileKey 0 := rootEntry ]})
           _ _) in Hreach.
  - exact Hreach.
  - cbn [initialLoopState entries]. rewrite Hroots.
    apply (lookup_seedRoots_single (newSet zl) rootEntry z), elem_of_newSet, Hz.
  - intros x Hx _. rewrite loopBody_low_zoom_level by assumption. exact Hx.
Qed.
End ZoomLevels.

(** ** The result, tile by tile *)

Lemma ancestor_first ts a k :
  ancestor ts a k ->
  k ∈ TilingScheme.getSubTileKeys ts a ∨
  ∃ c, c ∈ TilingScheme.getSubTileKeys ts a ∧ ancestor ts c k.
Proof.
  induction 1 as [p c Hc | a p c _ IH Hc].
  - left. exact Hc.
  - right. destruct IH as [Hp | (c0 & Hc0 & Ha)].
    + exists p. split; [exact Hp | apply ancestor_parent, Hc].
    + exists c0. split; [exact Hc0 | eapply ancestor_step; eassumption].
Qed.

Section Characterisation.
Context {Utils : TileOffsetUtils}.
Variable worldBox : GeoBox.
Variable ts : TilingScheme.t.
Variable zoomLevels : list Z.
Variable dataSources : list DataSource.t.
Variable uz : list Z.
Variable lod : bool.
Variable target : number.
Hypothesis Hlevels : childrenOneLevelDeeper ts.

Local Abbreviation body := (loopBody worldBox ts zoomLevels dataSources uz lod target).
Local Abbreviation seen := (visible worldBox ts zoomLevels dataSources lod target).
Local Abbreviation goesDown := (descendsKey zoomLevels dataSources lod target).
Local Abbreviation stays := (leafFor zoomLevels dataSources lod target).

Lemma entryOf_fields k :
  tileKey (entryOf ts k) = k ∧ offset (entryOf ts k) = 0 ∧
  area (entryOf ts k) = areaAtLevel (level k).
Proof. unfold entryOf. destruct (level k); repeat split. Qed.

Lemma entryOf_root : entryOf ts rootTileKey = rootEntry.
Proof. reflexivity. Qed.

Lemma entryOf_child p c :
  c ∈ TilingScheme.getSubTileKeys ts p -> entryOf ts c = subTileEntry ts c 0.
Proof. intros Hc. unfold entryOf. rewrite (Hlevels _ _ Hc). reflexivity. Qed.

Lemma visible_from_root k :
  seen k -> k = rootTileKey ∨ ancestor ts rootTileKey k.
Proof.
  induction 1 as [| p c _ IH _ Hc _]; [left; reflexivity | right].
  destruct IH as [-> | Ha]; [apply ancestor_parent, Hc |].
  eapply ancestor_step; eassumption.
Qed.

Lemma visible_intersects p c :
  c ∈ TilingScheme.getSubTileKeys ts p -> seen c ->
  geoBoxesIntersect worldBox (getGeoBox ts c 0) = true.
Proof.
  intros Hc Hv. pose proof (Hlevels _ _ Hc) as Hl.
  inversion Hv as [Hroot | p' c' _ _ _ Hi]; subst; [discriminate | exact Hi].
Qed.

Lemma visible_ancestors a k :
  uniqueParent ts -> seen k -> ancestor ts a k -> seen a ∧ goesDown a = true.
Proof.
  intros Hunique Hv. revert a.
  induction Hv as [| p c Hp IH Hd Hc _]; intros a Ha.
  - apply (ancestor_level _ _ _ Hlevels) in Ha. cbn in Ha. lia.
  - destruct (ancestor_of_child ts _ _ _ Hunique Hc Ha) as [-> | Ha'];
      [split; assumption | apply IH, Ha'].
Qed.

Lemma visibleInv_loopBody s :
  visibleInv worldBox ts zoomLevels dataSources lod target s ->
  visibleInv worldBox ts zoomLevels dataSources lod target (body s).
Proof.
  apply (entries_invariant_loopBody worldBox ts zoomLevels dataSources uz lod target
           (fun e => seen (tileKey e) ∧ e = entryOf ts (tileKey e))).
  intros p c [Hv He] Hd Hc Hi.
  assert (Hoff : offset p = 0) by (rewrite He; apply entryOf_fields).
  rewrite Hoff in *. cbn [subTileEntry newTileKeyEntry tileKey].
  split.
  - apply (visible_child _ _ _ _ _ _ (tileKey p) c); [exact Hv | | exact Hc | exact Hi].
    rewrite <- Hd. symmetry. apply descends_descendsKey.
    rewrite He at 1. apply entryOf_fields.
  - symmetry. apply (entryOf_child _ _ Hc).
Qed.

Lemma visibleInv_initial this :
  m_rootTileKeys this = [] ∨ m_rootTileKeys this = [rootEntry] ->
  visibleInv worldBox ts zoomLevels dataSources lod target
    (initialLoopState this zoomLevels).
Proof.
  intros Hroots.
  assert (Hall : ∀ item, item ∈ m_rootTileKeys this -> item = rootEntry).
  { intros item Hitem. destruct Hroots as [Hr | Hr]; rewrite Hr in Hitem.
    - apply not_elem_of_nil in Hitem. destruct Hitem.
    - apply list_elem_of_singleton in Hitem. exact Hitem. }
  split; cbn [initialLoopState entries workList].
  - apply allEntries_seedRoots; [apply allEntries_createMaps |].
    intros item z Hitem _. rewrite (Hall _ Hitem).
    split; [apply visible_root | reflexivity].
  - apply Forall_forall. intros w Hw. rewrite elem_of_reverse in Hw.
    rewrite (Hall _ Hw). split; [apply visible_root | reflexivity].
Qed.
End Characterisation.

Section Completeness.
Context {Utils : TileOffsetUtils}.
Variable worldBox : GeoBox.
Variable ts : TilingScheme.t.
Variable zoomLevels : list Z.
Variable dataSources : list DataSource.t.
Variable uz : list Z.
Variable lod : bool.
Variable target : number.
Hypothesis Hlevels : childrenOneLevelDeeper ts.
Hypothesis Hunique : uniqueParent ts.
Hypothesis Hkeys : keysDistinct worldBox ts zoomLevels dataSources lod target.

Local Abbreviation body := (loopBody worldBox ts zoomLevels dataSources uz lod target).
Local Abbreviation seen := (visible worldBox ts zoomLevels dataSources lod target).
Local Abbreviation goesDown := (descendsKey zoomLevels dataSources lod target).
Local Abbreviation stays := (leafFor zoomLevels dataSources lod target).
Local Abbreviation inMap := (fun (M : gmap Z (gmap Z TileKeyEntry)) (z : Z) (k : TileKey) =>
  ∃ m, M !! z = Some m ∧ m !! getKeyForTileKeyAndOffset k 0 = Some (entryOf ts k)).
Local Abbreviation waiting := (fun (W : list TileKeyEntry) (k : TileKey) =>
  ∃ w, w ∈ W ∧ ancestor ts (tileKey w) k).
Local Abbreviation below := (fun (cs : list TileKey) (k : TileKey) =>
  k ∈ cs ∨ ∃ c, c ∈ cs ∧ ancestor ts c k).

(** The loop over the sub tiles of a descending visible tile [kp]: tiles
    below the sub tiles still to visit are pending. *)
Lemma complete_children kp cs s :
  seen kp -> goesDown kp = true ->
  (∀ c, c ∈ cs -> c ∈ TilingScheme.getSubTileKeys ts kp) ->
  (∀ z, z ∈ uz -> is_Some (entries s !! z)) ->
  (∀ z k, z ∈ uz -> seen k -> stays z k ->
     inMap (entries s) z k ∨ waiting (workList s) k ∨ below cs k) ->
  ∀ z k, z ∈ uz -> seen k -> stays z k ->
    inMap (entries (foldl (visitChild worldBox ts uz 0) s cs)) z k ∨
    waiting (workList (foldl (visitChild worldBox ts uz 0) s cs)) k.
Proof.
  intros Hkp Hd. revert s.
  induction cs as [| c cs IH]; intros s Hcs Hdom Hpend; cbn [foldl].
  - intros z k Hz Hk Hst.
    destruct (Hpend z k Hz Hk Hst) as [H | [H | [H | (c & H & _)]]];
      [left; exact H | right; exact H | |]; apply not_elem_of_nil in H; destruct H.
  - assert (Hc : c ∈ TilingScheme.getSubTileKeys ts kp) by apply Hcs, list_elem_of_here.
    apply IH.
    + intros c' Hc'. apply Hcs, list_elem_of_further, Hc'.
    + intros z Hz. apply visitChild_defined, Hdom, Hz.
    + intros z k Hz Hk Hst.
      destruct (visitChild_cases worldBox ts uz 0 s c) as [[Hi ->] | [Hi ->]].
      * (* the sub tile is pruned: nothing visible lies below it *)
        destruct (Hpend z k Hz Hk Hst) as [H | [H | [H | (c0 & H & Ha)]]];
          [left; exact H | right; left; exact H | |].
        -- apply elem_of_cons in H as [-> | H]; [| right; right; left; exact H].
           rewrite (visible_intersects worldBox ts zoomLevels dataSources lod target
                      Hlevels kp c Hc Hk) in Hi. discriminate.
        -- apply elem_of_cons in H as [-> | H]; [| right; right; right; eauto].
           destruct (visible_ancestors worldBox ts zoomLevels dataSources lod target
                       Hlevels c k Hunique Hk Ha) as [Hvc _].
           rewrite (visible_intersects worldBox ts zoomLevels dataSources lod target
                      Hlevels kp c Hc Hvc) in Hi. discriminate.
      * (* the sub tile survives *)
        assert (Hvc : seen c) by exact (visible_child _ _ _ _ _ _ kp c Hkp Hd Hc Hi).
        cbn [entries workList].
        assert (Hput : Z.of_nat (level c) <= z ->
                  inMap (forEachZoomLevel (fun zoomLevel => Z.of_nat (level c) >? zoomLevel)
                           (insert (getKeyForTileKeyAndOffset c 0) (subTileEntry ts c 0))
                           uz (entries s)) z c).
        { intros Hle. destruct (Hdom z Hz) as [m0 Hm0].
          exists (<[getKeyForTileKeyAndOffset c 0 := subTileEntry ts c 0]> m0).
          rewrite lookup_forEachZoomLevel by (intros; apply insert_idempotent).
          rewrite bool_decide_eq_true_2 by exact Hz.
          replace (Z.of_nat (level c) >? z) with false
            by (symmetry; rewrite Z.gtb_ltb; apply Z.ltb_ge; lia).
          cbn [negb andb]. rewrite Hm0. split; [reflexivity |].
          rewrite lookup_insert_eq, (entryOf_child ts Hlevels kp c Hc). reflexivity. }
        destruct (Hpend z k Hz Hk Hst) as [(m & Hm & Hin) | [(w & Hw & Ha) | [H | (c0 & H & Ha)]]].
        -- left.
           rewrite lookup_forEachZoomLevel by (intros; apply insert_idempotent).
           destruct (_ && _); [| eauto].
           rewrite Hm. cbn. eexists. split; [reflexivity |].
           rewrite lookup_insert.
           destruct (decide (getKeyForTileKeyAndOffset c 0 = getKeyForTileKeyAndOffset k 0))
             as [Heq |]; [| exact Hin].
           rewrite <- (Hkeys c k Hvc Hk Heq), (entryOf_child ts Hlevels kp c Hc).
           reflexivity.
        -- right. left. exists w. split; [apply list_elem_of_further, Hw | exact Ha].
        -- apply elem_of_cons in H as [-> | H]; [| right; right; left; exact H].
           left. apply Hput. destruct Hst as [[Hl | Hl] _]; [| exact Hl].
           rewrite (Hlevels _ _ Hc) in Hl. discriminate.
        -- apply elem_of_cons in H as [-> | H]; [| right; right; right; eauto].
           right. left. exists (subTileEntry ts c 0).
           split; [apply list_elem_of_here | exact Ha].
Qed.

Lemma completeInv_loopBody s :
  visibleInv worldBox ts zoomLevels dataSources lod target s ->
  (∀ z, z ∈ uz -> is_Some (entries s !! z)) ->
  completeInv worldBox ts zoomLevels dataSources lod target uz s ->
  completeInv worldBox ts zoomLevels dataSources lod target uz (body s).
Proof.
  unfold completeInv. intros [_ HW] Hdom Hcomp.
  destruct s as [M W]. destruct W as [| p rest].
  - unfold loopBody. cbn. exact Hcomp.
  - rewrite (loopBody_descends _ _ _ _ _ _ _ (mkLoopState M (p :: rest)) p rest eq_refl).
    cbn [entries workList] in *.
    apply Forall_cons in HW as [[Hvp Hep] _].
    assert (Hoff : offset p = 0) by (rewrite Hep; apply entryOf_fields).
    assert (Hdecide : descends zoomLevels dataSources lod target p = goesDown (tileKey p)).
    { apply descends_descendsKey. rewrite Hep at 1. apply entryOf_fields. }
    rewrite Hdecide, Hoff.
    destruct (goesDown (tileKey p)) eqn:Hd.
    + apply (complete_children (tileKey p)); [exact Hvp | exact Hd | auto | |].
      * intros z Hz. cbn [entries].
        rewrite lookup_forEachZoomLevel by (intros; apply delete_idempotent).
        destruct (_ && _); [apply fmap_is_Some |]; apply Hdom, Hz.
      * intros z k Hz Hk Hst. cbn [entries workList].
        destruct (Hcomp z k Hz Hk Hst) as [(m & Hm & Hin) | (w & Hw & Ha)].
        -- left.
           rewrite lookup_forEachZoomLevel by (intros; apply delete_idempotent).
           destruct (bool_decide (z ∈ uz) &&
                     negb (Z.of_nat (level (tileKey p)) >=? z)) eqn:Hcond; [| eauto].
           rewrite Hm. cbn. eexists. split; [reflexivity |].
           rewrite lookup_delete_ne; [exact Hin |].
           intros Heq. pose proof (Hkeys _ _ Hvp Hk Heq) as <-.
           apply andb_true_iff in Hcond as [_ Hcond].
           apply negb_true_iff in Hcond.
           destruct Hst as [_ [Hst | Hst]]; [| congruence].
           assert (Hge : (Z.of_nat (level (tileKey p)) >=? z) = true)
             by (apply Z.geb_le; lia).
           congruence.
        -- apply elem_of_cons in Hw as [-> | Hw].
           ++ right. right. apply ancestor_first, Ha.
           ++ right. left. eauto.
    + intros z k Hz Hk Hst. cbn [entries workList].
      destruct (Hcomp z k Hz Hk Hst) as [H | (w & Hw & Ha)]; [left; exact H |].
      apply elem_of_cons in Hw as [-> | Hw]; [| right; eauto].
      destruct (visible_ancestors worldBox ts zoomLevels dataSources lod target
                  Hlevels _ k Hunique Hk Ha) as [_ Hdown].
      congruence.
Qed.

Lemma completeInv_initial this :
  m_rootTileKeys this = [rootEntry] -> uz = newSet zoomLevels ->
  completeInv worldBox ts zoomLevels dataSources lod target uz
    (initialLoopState this zoomLevels).
Proof.
  intros Hroots -> z k Hz Hk _. cbn [initialLoopState entries workList].
  rewrite Hroots.
  destruct (visible_from_root worldBox ts zoomLevels dataSources lod target k Hk)
    as [-> | Ha].
  - left. eexists. split; [apply lookup_seedRoots_single, Hz |].
    apply lookup_singleton_eq.
  - right. exists rootEntry. split; [apply list_elem_of_here | exact Ha].
Qed.
End Completeness.

Section ResultTheorems.
Context {Utils : TileOffsetUtils}.

(** Every entry of a returned zoom-level map is the entry of a visible tile
    at offset 0, stored under the key of that tile, and the tile stays in
    the map: it is not below the zoom level of the map (unless it is the
    root), and it is at that level or the loop did not descend through it. *)
Theorem compute_entries_are_visible_leaves fuel this mapView ts ers zl ds r this' wb :
  Reachable this ->
  childrenOneLevelDeeper ts -> uniqueParent ts ->
  m_worldBox this = Some wb ->
  compute fuel this mapView ts ers zl ds = Done r this' ->
  ∀ z m κ e,
    tileKeyEntries r !! z = Some m -> m !! κ = Some e ->
    κ = getKeyForTileKeyAndOffset (tileKey e) 0 ∧
    e = entryOf ts (tileKey e) ∧
    visible wb ts zl ds (m_enableMixedLod this)
      (targetTileAreaOf (MapView.viewportHeight mapView)) (tileKey e) ∧
    leafFor zl ds (m_enableMixedLod this)
      (targetTileAreaOf (MapView.viewportHeight mapView)) z (tileKey e).
Proof.
  intros Hr Hlevels Hunique Hwb Hc z m κ e Hz Hk.
  apply compute_Done_inv in Hc as (_ & _ & [[Hnone _] | (wb' & s & Hwb' & Hrun & Hs)]);
    [congruence |].
  assert (wb' = wb) as -> by congruence. rewrite Hs in Hz.
  apply whileLoop_reaches in Hrun as [Hreach Hdone].
  apply (loopReaches_invariant _ _ _ _ _ _ _
           (fun s => partitionInv ts zl ds (newSet zl) (m_enableMixedLod this)
                       (targetTileAreaOf (MapView.viewportHeight mapView)) s ∧
                     visibleInv wb ts zl ds (m_enableMixedLod this)
                       (targetTileAreaOf (MapView.viewportHeight mapView)) s)
           _ _) in Hreach.
  - destruct Hreach as [(_ & H1 & H2 & _) [HV _]].
    destruct (H1 z m κ e Hz Hk) as (Hkey & Hlvl & _).
    destruct (HV z m κ e Hz Hk) as [Hvis He].
    assert (Hoff : offset e = 0) by (rewrite He; apply entryOf_fields).
    rewrite Hoff in Hkey. repeat split; try assumption.
    destruct (Z_le_gt_dec z (Z.of_nat (level (tileKey e)))) as [Hle | Hgt];
      [left; exact Hle | right].
    destruct (descendsKey zl ds (m_enableMixedLod this)
                (targetTileAreaOf (MapView.viewportHeight mapView)) (tileKey e))
      eqn:Hd; [| reflexivity].
    destruct (H2 z m κ e Hz Hk) as (w & Hw & _); [lia | exact Hd |].
    rewrite Hdone in Hw. apply not_elem_of_nil in Hw. destruct Hw.
  - split.
    + apply partitionInv_initial;
        [exact Hlevels | apply Reachable_roots_seeded, Hr | reflexivity].
    + apply visibleInv_initial, Reachable_roots, Hr.
  - intros x [Hp Hv] _. split.
    + apply partitionInv_loopBody; assumption.
    + apply visibleInv_loopBody; assumption.
Qed.

(** When the keys of different visible tiles differ, every visible tile that
    stays in the map of a requested zoom level is there, with its entry
    under its key, once [compute] has returned. *)
Theorem compute_holds_every_visible_leaf fuel this mapView ts ers zl ds r this' wb :
  Reachable this ->
  childrenOneLevelDeeper ts -> uniqueParent ts ->
  m_worldBox this = Some wb ->
  keysDistinct wb ts zl ds (m_enableMixedLod this)
    (targetTileAreaOf (MapView.viewportHeight mapView)) ->
  compute fuel this mapView ts ers zl ds = Done r this' ->
  ∀ z k,
    z ∈ zl ->
    visible wb ts zl ds (m_enableMixedLod this)
      (targetTileAreaOf (MapView.viewportHeight mapView)) k ->
    leafFor zl ds (m_enableMixedLod this)
      (targetTileAreaOf (MapView.viewportHeight mapView)) z k ->
    ∃ m, tileKeyEntries r !! z = Some m ∧
         m !! getKeyForTileKeyAndOffset k 0 = Some (entryOf ts k).
Proof.
  intros Hr Hlevels Hunique Hwb Hkeys Hc z k Hz Hvis Hleaf.
  destruct (Reachable_state this Hr) as [[Hnone _] | (wb0 & _ & Hroots)];
    [congruence |].
  apply compute_Done_inv in Hc as (_ & _ & [[Hnone _] | (wb' & s & Hwb' & Hrun & Hs)]);
    [congruence |].
  assert (wb' = wb) as -> by congruence. rewrite Hs.
  apply whileLoop_reaches in Hrun as [Hreach Hdone].
  apply (loopReaches_invariant _ _ _ _ _ _ _
           (fun s => visibleInv wb ts zl ds (m_enableMixedLod this)
                       (targetTileAreaOf (MapView.viewportHeight mapView)) s ∧
                     (∀ z, z ∈ newSet zl -> is_Some (entries s !! z)) ∧
                     completeInv wb ts zl ds (m_enableMixedLod this)
                       (targetTileAreaOf (MapView.viewportHeight mapView))
                       (newSet zl) s)
           _ _) in Hreach.
  - destruct Hreach as (_ & _ & Hcomp).
    destruct (Hcomp z k (proj2 (elem_of_newSet z zl) Hz) Hvis Hleaf)
      as [H | (w & Hw & _)]; [exact H |].
    rewrite Hdone in Hw. apply not_elem_of_nil in Hw. destruct Hw.
  - split; [apply visibleInv_initial; right; exact Hroots |].
    split; [| apply completeInv_initial; [exact Hroots | reflexivity]].
    intros z' Hz'. apply initialLoopState_defined, elem_of_newSet, Hz'.
  - intros x (Hv & Hdom & Hcomp) _. split; [apply visibleInv_loopBody; assumption |].
    split; [intros z' Hz'; apply loopBody_defined, Hdom, Hz' |].
    apply completeInv_loopBody; assumption.
Qed.
End ResultTheorems.

Lemma pairingUtils_injective k k' off off' :
  getKeyForTileKeyAndOffset (TileOffsetUtils := pairingUtils) k off
  = getKeyForTileKeyAndOffset (TileOffsetUtils := pairingUtils) k' off' ->
  k = k' ∧ off = off'.
Proof.
  cbn. intros Heq. injection Heq as Heq. apply (inj encode) in Heq.
  destruct k, k'. cbn in Heq. injection Heq as -> -> -> ->. split; reflexivity.
Qed.

Lemma visible_example_tile target :
  visible (boxOf 10 10 50 50) exampleTilingScheme [2] [levelDataSource] false target
    (mkTileKey 2 2 2).
Proof.
  apply (visible_child _ _ _ _ _ _ (mkTileKey 1 1 1)).
  - apply (visible_child _ _ _ _ _ _ rootTileKey).
    + apply visible_root.
    + reflexivity.
    + cbn. unfold quadTreeSubTileKeys. cbn.
      do 3 apply list_elem_of_further. apply list_elem_of_here.
    + reflexivity.
  - reflexivity.
  - cbn. unfold quadTreeSubTileKeys. cbn. apply list_elem_of_here.
  - reflexivity.
Qed.

Lemma compute_entries_are_visible_leaves_witness :
  let target := targetTileAreaOf 512 in
  let e := mkTileKeyEntry (mkTileKey 2 2 2) (Num 1) 0 0 0 1 in
  26 = exampleKey (tileKey e) 0 ∧
  e = entryOf exampleTilingScheme (tileKey e) ∧
  visible (boxOf 10 10 50 50) exampleTilingScheme [2] [levelDataSource] false
    target (tileKey e) ∧
  leafFor [2] [levelDataSource] false target 2 (tileKey e).
Proof.
  eapply (compute_entries_are_visible_leaves (Utils := exampleUtils) 10 exampleView
            (exampleMapView None 512) exampleTilingScheme None [2] [levelDataSource]
            _ _ (boxOf 10 10 50 50)) with (z := 2).
  - apply Reachable_exampleView.
  - apply quadTree_childrenOneLevelDeeper.
  - apply quadTree_uniqueParent.
  - reflexivity.
  - vm_compute. reflexivity.
  - vm_compute. reflexivity.
  - vm_compute. reflexivity.
Defined.

Lemma compute_holds_every_visible_leaf_witness :
  ∃ r this' m,
    compute (Utils := pairingUtils) 10 exampleView (exampleMapView None 512)
      exampleTilingScheme None [2] [levelDataSource] = Done r this' ∧
    tileKeyEntries r !! 2 = Some m ∧
    m !! getKeyForTileKeyAndOffset (TileOffsetUtils := pairingUtils) (mkTileKey 2 2 2) 0
    = Some (entryOf exampleTilingScheme (mkTileKey 2 2 2)).
Proof.
  eexists _, _.
  assert (Hdone : compute (Utils := pairingUtils) 10 exampleView (exampleMapView None 512)
                    exampleTilingScheme None [2] [levelDataSource] = Done _ _)
    by (vm_compute; reflexivity).
  destruct (compute_holds_every_visible_leaf (Utils := pairingUtils) 10 exampleView
              (exampleMapView None 512) exampleTilingScheme None [2] [levelDataSource]
              _ _ (boxOf 10 10 50 50) Reachable_exampleView
              quadTree_childrenOneLevelDeeper quadTree_uniqueParent eq_refl
              (fun k k' _ _ Heq => proj1 (pairingUtils_injective k k' 0 0 Heq))
              Hdone 2 (mkTileKey 2 2 2))
    as (m & Hm & Hin).
  - apply list_elem_of_here.
  - apply visible_example_tile.
  - split; [right | left]; cbn; lia.
  - exists m. split; [exact Hdone |]. split; assumption.
Defined.

(** ** Termination *)

Section Termination.
Context {Utils : TileOffsetUtils}.
Variable worldBox : GeoBox.
Variable ts : TilingScheme.t.
Variable zoomLevels : list Z.
Variable dataSources : list DataSource.t.
Variable uz : list Z.
Variable lod : bool.
Variable target : number.
Variable b depth : nat.
Hypothesis Hlevels : childrenOneLevelDeeper ts.
Hypothesis Hbranching :
  ∀ k, (length (TilingScheme.getSubTileKeys ts k) <= b)%nat.
Hypothesis Hdepth :
  ∀ k, (depth <= level k)%nat -> someShouldSubdivide zoomLevels k 0 dataSources = false.

Local Abbreviation body := (loopBody worldBox ts zoomLevels dataSources uz lod target).

Lemma rounds_pos d : (1 <= rounds b d)%nat.
Proof. destruct d; cbn; lia. Qed.

Lemma roundsFor_children kp off cs s :
  (∀ c, c ∈ cs -> c ∈ TilingScheme.getSubTileKeys ts kp) ->
  (roundsFor b depth (workList (foldl (visitChild worldBox ts uz off) s cs))
   <= length cs * rounds b (depth - S (level kp)) + roundsFor b depth (workList s))%nat.
Proof.
  revert s. induction cs as [| c cs IH]; intros s Hcs; cbn [foldl length]; [lia |].
  etransitivity;
    [apply IH; intros c' Hc'; apply Hcs, list_elem_of_further, Hc' |].
  destruct (visitChild_cases worldBox ts uz off s c) as [[_ ->] | [_ ->]]; [lia |].
  cbn [workList roundsFor foldr subTileEntry newTileKeyEntry tileKey].
  rewrite (Hlevels _ _ (Hcs c (list_elem_of_here _ _))).
  fold (roundsFor b depth (workList s)). lia.
Qed.

Lemma roundsFor_loopBody s n :
  workList s ≠ [] ->
  (roundsFor b depth (workList s) <= S n)%nat ->
  (roundsFor b depth (workList (body s)) <= n)%nat.
Proof.
  destruct s as [M W]. destruct W as [| p rest]; [intros Hne; cbn in Hne; congruence |].
  intros _.
  rewrite (loopBody_descends _ _ _ _ _ _ _ (mkLoopState M (p :: rest)) p rest eq_refl).
  cbn [workList roundsFor foldr]. fold (roundsFor b depth rest).
  pose proof (rounds_pos (depth - level (tileKey p))) as Hpos.
  destruct (descends zoomLevels dataSources lod target p) eqn:Hd;
    [| cbn [workList]; lia].
  intros Hle.
  assert (Hlt : (level (tileKey p) < depth)%nat).
  { destruct (Nat.lt_ge_cases (level (tileKey p)) depth) as [Hlt | Hge]; [exact Hlt |].
    unfold descends in Hd. rewrite (Hdepth _ Hge) in Hd. discriminate. }
  etransitivity; [apply (roundsFor_children (tileKey p)); auto |].
  cbn [workList].
  replace (depth - level (tileKey p))%nat with (S (depth - S (level (tileKey p))))
    in Hle by lia.
  cbn [rounds] in Hle.
  pose proof (Nat.mul_le_mono_r _ _ (rounds b (depth - S (level (tileKey p))))
                (Hbranching (tileKey p))).
  lia.
Qed.

Lemma whileLoop_terminates n s :
  (roundsFor b depth (workList s) <= n)%nat ->
  is_Some (whileLoop worldBox ts zoomLevels dataSources uz lod target n s).
Proof.
  revert s. induction n as [| n IH]; intros s Hle; cbn [whileLoop];
    destruct (workList s) as [| p rest] eqn:Hw; try (eexists; reflexivity).
  - cbn [roundsFor foldr] in Hle.
    pose proof (rounds_pos (depth - level (tileKey p))). lia.
  - apply IH, roundsFor_loopBody; [rewrite Hw; discriminate | rewrite Hw; exact Hle].
Qed.
End Termination.

(** When the data sources stop asking for subdivision from some level on and
    a tile has at most [b] sub tiles, [compute] returns: the loop takes at
    most [1 + b + ... + b^depth] rounds. *)
Theorem compute_terminates {Utils : TileOffsetUtils} fuel this mapView ts ers zl ds b depth :
  Reachable this ->
  childrenOneLevelDeeper ts ->
  (∀ k, (length (TilingScheme.getSubTileKeys ts k) <= b)%nat) ->
  (∀ k, (depth <= level k)%nat -> someShouldSubdivide zl k 0 ds = false) ->
  ¬ (MapView.viewportHeight mapView == 0)%Q ->
  (rounds b depth <= fuel)%nat ->
  ∃ r this', compute fuel this mapView ts ers zl ds = Done r this'.
Proof.
  intros Hr Hlevels Hb Hdepth Hh Hfuel. unfold compute.
  cbn [setTileKeyEntries m_worldBox m_enableMixedLod].
  destruct (m_worldBox this) as [wb |]; [| eauto].
  destruct (Qeq_bool (MapView.viewportHeight mapView) 0) eqn:Hq;
    [apply Qeq_bool_iff in Hq; contradiction |].
  destruct (whileLoop _ _ _ _ _ _ _ _ _) as [s |] eqn:Hs; [eauto | exfalso].
  destruct (whileLoop_terminates wb ts zl ds (newSet zl) (m_enableMixedLod this)
              (targetTileAreaOf (MapView.viewportHeight mapView)) b depth
              Hlevels Hb Hdepth fuel (initialLoopState this zl))
    as [s' Hs'].
  - cbn [initialLoopState workList].
    destruct (Reachable_roots this Hr) as [-> | ->]; cbn.
    + lia.
    + rewrite Nat.sub_0_r. lia.
  - assert (Hno : Some s' = None) by (rewrite <- Hs', <- Hs; reflexivity).
    discriminate.
Qed.

Lemma compute_terminates_witness :
  ∃ r this',
    compute (Utils := exampleUtils) 21 globeView (exampleMapView None 512)
      exampleTilingScheme None [2] [levelDataSource] = Done r this'.
Proof.
  apply (compute_terminates (Utils := exampleUtils) 21 globeView
           (exampleMapView None 512) exampleTilingScheme None [2] [levelDataSource]
           4 2).
  - apply Reachable_updateFrustum, Reachable_new.
  - apply quadTree_childrenOneLevelDeeper.
  - intros k. cbn. lia.
  - intros k Hk. cbn. rewrite orb_false_r. apply Z.ltb_ge. lia.
  - discriminate.
  - cbn. lia.
Defined.

(** ** Mixed LOD with the areas the code assigns *)

Lemma targetTileArea_above_1 h :
  (0 < h)%Q -> (h < 256)%Q -> numLt (Num 1) (targetTileAreaOf h) = true.
Proof.
  intros H0 H1. cbn. apply Qltb_lt.
  assert (Hx : (1 < 256 / h)%Q) by (apply Qlt_shift_div_l; [exact H0 | lra]).
  nra.
Qed.

Lemma targetTileArea_at_most_1 h :
  (256 <= h)%Q -> numLt (Num 1) (targetTileAreaOf h) = false.
Proof.
  intros H1. cbn. apply not_true_is_false. rewrite Qltb_lt.
  assert (H0 : (0 < h)%Q) by lra.
  assert (Hx : (256 / h <= 1)%Q) by (apply Qle_shift_div_r; [exact H0 | lra]).
  assert (Hy : (0 <= 256 / h)%Q) by (apply Qle_shift_div_l; [exact H0 | lra]).
  nra.
Qed.

Section MixedLod.
Context {Utils : TileOffsetUtils}.

(** On a viewport lower than 256 pixels with mixed LOD enabled, only the
    root is subdivided: every sub tile has area 1, below the target, so no
    entry of the result lies below level 1, whatever the data sources ask
    for. *)
Theorem mixed_lod_low_viewport_stops_at_level_1 fuel this mapView ts ers zl ds r this' :
  Reachable this ->
  childrenOneLevelDeeper ts ->
  m_enableMixedLod this = true ->
  (0 < MapView.viewportHeight mapView)%Q ->
  (MapView.viewportHeight mapView < 256)%Q ->
  compute fuel this mapView ts ers zl ds = Done r this' ->
  ∀ z m κ e,
    tileKeyEntries r !! z = Some m -> m !! κ = Some e ->
    (level (tileKey e) <= 1)%nat.
Proof.
  intros Hr Hlevels Hlod H0 H256 Hc z m κ e Hz Hk.
  apply compute_Done_inv in Hc as (_ & _ & [[_ Hempty] | (wb & s & _ & Hrun & Hs)]).
  { rewrite Hempty, lookup_empty in Hz. discriminate. }
  rewrite Hs in Hz. rewrite Hlod in Hrun.
  apply whileLoop_reaches in Hrun as [Hreach _].
  pose (G := fun e : TileKeyEntry =>
              area e = areaAtLevel (level (tileKey e)) ∧ (level (tileKey e) <= 1)%nat).
  apply (loopReaches_invariant _ _ _ _ _ _ _
           (fun s => allEntries (fun _ _ e => G e) (entries s) ∧ Forall G (workList s))
           _ _) in Hreach.
  - destruct Hreach as [HM _]. apply (HM z m κ e Hz Hk).
  - pose proof (Reachable_roots_seeded this Hr) as Hroots.
    rewrite Forall_forall in Hroots.
    split; cbn [initialLoopState entries workList].
    + apply allEntries_seedRoots; [apply allEntries_createMaps |].
      intros item z' Hitem _. destruct (Hroots _ Hitem) as [Hl _].
      split; cbn; rewrite Hl; [reflexivity | lia].
    + apply Forall_forall. intros w Hw. rewrite elem_of_reverse in Hw.
      destruct (Hroots _ Hw) as [Hl Ha]. split; rewrite Hl; [exact Ha | lia].
  - intros x Hx _. revert Hx. apply entries_invariant_loopBody.
    intros p c [Ha Hl] Hd Hc Hi.
    assert (Hp : level (tileKey p) = 0%nat).
    { destruct (level (tileKey p)) as [| n] eqn:Hn; [reflexivity |].
      unfold descends in Hd. cbn [areaAtLevel] in Ha.
      rewrite Ha, (targetTileArea_above_1 _ H0 H256) in Hd.
      rewrite andb_false_r in Hd. discriminate. }
    split; cbn; rewrite (Hlevels _ _ Hc), Hp; [reflexivity | lia].
Qed.

Lemma loopBody_lod_irrelevant wb ts zl ds uz target lod1 lod2 s :
  numLt (Num 1) target = false ->
  Forall (fun e => area e = Infinity ∨ area e = Num 1) (workList s) ->
  loopBody wb ts zl ds uz lod1 target s = loopBody wb ts zl ds uz lod2 target s.
Proof.
  intros Ht HW. unfold loopBody. destruct (workList s) as [| p rest]; [reflexivity |].
  apply Forall_cons in HW as [Hp _].
  assert (Hno : numLt (area p) target = false)
    by (destruct Hp as [-> | ->]; [reflexivity | exact Ht]).
  rewrite Hno, !andb_false_r. reflexivity.
Qed.

Lemma whileLoop_lod_irrelevant wb ts zl ds uz target lod1 lod2 fuel s :
  numLt (Num 1) target = false ->
  allEntries (fun _ _ e => area e = Infinity ∨ area e = Num 1) (entries s) ∧
  Forall (fun e => area e = Infinity ∨ area e = Num 1) (workList s) ->
  whileLoop wb ts zl ds uz lod1 target fuel s
  = whileLoop wb ts zl ds uz lod2 target fuel s.
Proof.
  intros Ht. revert s. induction fuel as [| fuel IH]; intros s Hs; cbn [whileLoop].
  - destruct (workList s); reflexivity.
  - pose proof (loopBody_lod_irrelevant wb ts zl ds uz target lod1 lod2 s Ht (proj2 Hs))
      as Hbody.
    assert (Hnext :
      allEntries (fun _ _ e => area e = Infinity ∨ area e = Num 1)
        (entries (loopBody wb ts zl ds uz lod2 target s)) ∧
      Forall (fun e => area e = Infinity ∨ area e = Num 1)
        (workList (loopBody wb ts zl ds uz lod2 target s))).
    { revert Hs. apply entries_invariant_loopBody.
      intros p c _ _ _ _. right. reflexivity. }
    destruct (workList s); [reflexivity |].
    rewrite Hbody. apply IH, Hnext.
Qed.

(** On a viewport of 256 pixels or more the mixed-LOD switch changes
    nothing: no entry the code creates has an area below the target, so
    [compute] returns the same result with the switch on and off. *)
Theorem mixed_lod_irrelevant_on_high_viewport fuel this lod mapView ts ers zl ds :
  Reachable this ->
  (256 <= MapView.viewportHeight mapView)%Q ->
  compute fuel (withMixedLod this lod) mapView ts ers zl ds
  = mapOutcome (fun t => withMixedLod t lod) (compute fuel this mapView ts ers zl ds).
Proof.
  intros Hr Hh. unfold compute.
  cbn [withMixedLod setTileKeyEntries m_worldBox m_enableMixedLod
       m_tileWrappingEnabled m_rootTileKeys m_viewProjectionMatrix m_tileKeyEntries].
  destruct (m_worldBox this) as [wb |]; [| reflexivity].
  destruct (Qeq_bool _ _); [reflexivity |].
  unfold initialLoopState. cbn [m_rootTileKeys].
  rewrite (whileLoop_lod_irrelevant wb ts zl ds (newSet zl)
             (targetTileAreaOf (MapView.viewportHeight mapView))
             lod (m_enableMixedLod this)).
  - destruct (whileLoop _ _ _ _ _ _ _ _ _); reflexivity.
  - apply targetTileArea_at_most_1, Hh.
  - pose proof (Reachable_roots_seeded this Hr) as Hroots.
    rewrite Forall_forall in Hroots. split; cbn [entries workList].
    + apply allEntries_seedRoots; [apply allEntries_createMaps |].
      intros item z Hitem _. left. reflexivity.
    + apply Forall_forall. intros w Hw. rewrite elem_of_reverse in Hw.
      left. apply (Hroots _ Hw).
Qed.
End MixedLod.

Lemma mixed_lod_low_viewport_stops_at_level_1_witness :
  ∃ r this' m e,
    compute (Utils := exampleUtils) 5 mixedLodGlobeView (exampleMapView None 128)
      exampleTilingScheme None [3] [eagerDataSource] = Done r this' ∧
    tileKeyEntries r !! 3 = Some m ∧
    m !! 7 = Some e ∧
    tileKey e = mkTileKey 1 1 1 ∧
    (level (tileKey e) <= 1)%nat.
Proof.
  eexists _, _, _, _.
  split; [vm_compute; reflexivity |].
  split; [vm_compute; reflexivity |].
  split; [vm_compute; reflexivity |].
  split; [reflexivity |].
  eapply (mixed_lod_low_viewport_stops_at_level_1 (Utils := exampleUtils) 5
            mixedLodGlobeView (exampleMapView None 128) exampleTilingScheme None [3]
            [eagerDataSource]) with (z := 3) (κ := 7).
  - apply Reachable_updateFrustum, Reachable_new.
  - apply quadTree_childrenOneLevelDeeper.
  - reflexivity.
  - reflexivity.
  - reflexivity.
  - vm_compute. reflexivity.
  - vm_compute. reflexivity.
  - vm_compute. reflexivity.
Defined.

Lemma mixed_lod_irrelevant_on_high_viewport_witness :
  compute (Utils := exampleUtils) 21 (withMixedLod globeView true)
    (exampleMapView None 512) exampleTilingScheme None [2] [levelDataSource]
  = mapOutcome (fun t => withMixedLod t true)
      (compute (Utils := exampleUtils) 21 globeView (exampleMapView None 512)
         exampleTilingScheme None [2] [levelDataSource]).
Proof.
  apply (mixed_lod_irrelevant_on_high_viewport (Utils := exampleUtils) 21 globeView true
           (exampleMapView None 512) exampleTilingScheme None [2] [levelDataSource]).
  - apply Reachable_updateFrustum, Reachable_new.
  - discriminate.
Defined.

Lemma compute_one_map_per_zoom_level_witness :
  ∃ r this',
    compute (Utils := exampleUtils) 21 globeView (exampleMapView None 512)
      exampleTilingScheme None [2; -1; 2] [levelDataSource] = Done r this' ∧
    (is_Some (tileKeyEntries r !! (-1)) <-> -1 ∈ [2; -1; 2]) ∧
    (is_Some (tileKeyEntries r !! 1) <-> 1 ∈ [2; -1; 2]).
Proof.
  eexists _, _. split; [vm_compute; reflexivity |].
  split;
    eapply (compute_one_map_per_zoom_level (Utils := exampleUtils) 21 globeView
              (exampleMapView None 512) exampleTilingScheme None [2; -1; 2]
              [levelDataSource] _ _ (boxOf (-180) (-90) 180 90));
    first [vm_compute; reflexivity | reflexivity].
Defined.

Lemma compute_root_only_at_zoom_level_0_witness :
  ∃ r this',
    compute (Utils := exampleUtils) 21 globeView (exampleMapView None 512)
      exampleTilingScheme None [2; 0] [levelDataSource; levelDataSource]
    = Done r this' ∧
    tileKeyEntries r !! 0 = Some {[ exampleKey rootTileKey 0 := rootEntry ]}.
Proof.
  eexists _, _. split; [vm_compute; reflexivity |].
  eapply (compute_root_only_at_zoom_level_0 (Utils := exampleUtils) 21 globeView
            (exampleMapView None 512) exampleTilingScheme None [2; 0]
            [levelDataSource; levelDataSource] _ _ (boxOf (-180) (-90) 180 90)).
  - apply Reachable_updateFrustum, Reachable_new.
  - apply quadTree_childrenOneLevelDeeper.
  - reflexivity.
  - vm_compute. reflexivity.
  - apply list_elem_of_further, list_elem_of_here.
  - lia.
Defined.

(** ** What [compute] reads *)

Section Reads.
Context {Utils : TileOffsetUtils}.

Lemma whileLoop_without_lod wb ts zl ds uz target1 target2 fuel s :
  whileLoop wb ts zl ds uz false target1 fuel s
  = whileLoop wb ts zl ds uz false target2 fuel s.
Proof.
  revert s. induction fuel as [| fuel IH]; intros s; cbn [whileLoop];
    destruct (workList s) eqn:Hw; reflexivity.
Qed.

(** With mixed LOD disabled the result does not depend on the map view (its
    projection type, its geo box, the height of its viewport as long as it
    is not zero) nor on the elevation range source: the choice between the
    2D test and oriented boxes that [compute] prepares is never used. *)
Theorem compute_without_mixed_lod_ignores_view fuel this mapView mapView' ts ers ers' zl ds :
  m_enableMixedLod this = false ->
  ¬ (MapView.viewportHeight mapView == 0)%Q ->
  ¬ (MapView.viewportHeight mapView' == 0)%Q ->
  compute fuel this mapView ts ers zl ds = compute fuel this mapView' ts ers' zl ds.
Proof.
  intros Hlod Hh Hh'. unfold compute. cbn [setTileKeyEntries m_worldBox m_enableMixedLod].
  destruct (m_worldBox this); [| reflexivity].
  destruct (Qeq_bool (MapView.viewportHeight mapView) 0) eqn:Hq;
    [apply Qeq_bool_iff in Hq; contradiction |].
  destruct (Qeq_bool (MapView.viewportHeight mapView') 0) eqn:Hq';
    [apply Qeq_bool_iff in Hq'; contradiction |].
  rewrite Hlod.
  rewrite (whileLoop_without_lod _ _ _ _ _
             (targetTileAreaOf (MapView.viewportHeight mapView))
             (targetTileAreaOf (MapView.viewportHeight mapView'))).
  reflexivity.
Qed.

(** [compute] stops at its assertion exactly when the receiver has a world
    box and the viewport height is zero; the maps of the previous result are
    cleared by then. *)
Theorem compute_assertion_fails_iff fuel this mapView ts ers zl ds this' :
  compute fuel this mapView ts ers zl ds = AssertionFailed this' <->
  m_worldBox this ≠ None ∧ (MapView.viewportHeight mapView == 0)%Q ∧
  this' = setTileKeyEntries this ∅.
Proof.
  unfold compute. cbn [setTileKeyEntries m_worldBox m_enableMixedLod].
  destruct (m_worldBox this) as [wb |] eqn:Hwb.
  - destruct (Qeq_bool (MapView.viewportHeight mapView) 0) eqn:Hq.
    + apply Qeq_bool_iff in Hq. split.
      * intros Hf. injection Hf as <-.
        split; [discriminate |]. split; [exact Hq | reflexivity].
      * intros (_ & _ & ->). reflexivity.
    + split.
      * destruct (whileLoop _ _ _ _ _ _ _ _ _); discriminate.
      * intros (_ & Hz & _). apply Qeq_bool_iff in Hz. congruence.
  - split; [discriminate | intros (Hne & _); congruence].
Qed.
End Reads.

Lemma compute_without_mixed_lod_ignores_view_witness :
  compute (Utils := exampleUtils) 21 globeView (exampleMapView None 512)
    exampleTilingScheme None [2] [levelDataSource]
  = compute (Utils := exampleUtils) 21 globeView
      (MapView.mk Spherical (Some zeroGeoBox) 100) exampleTilingScheme
      (Some (ElevationRangeSource.mk exampleTilingScheme)) [2] [levelDataSource].
Proof.
  apply (compute_without_mixed_lod_ignores_view (Utils := exampleUtils) 21 globeView).
  - reflexivity.
  - discriminate.
  - discriminate.
Defined.

Lemma compute_assertion_fails_iff_witness :
  compute (Utils := exampleUtils) 21 globeView (exampleMapView None 0)
    exampleTilingScheme None [2] [levelDataSource]
  = AssertionFailed (setTileKeyEntries globeView ∅).
Proof.
  apply (compute_assertion_fails_iff (Utils := exampleUtils) 21 globeView
           (exampleMapView None 0) exampleTilingScheme None [2] [levelDataSource]).
  split; [discriminate |]. split; reflexivity.
Defined.

(** ** The intersection test and the longitude shift *)

(** A world box and a tile that both lie between the longitudes -180 and 180
    never intersect once the tile is shifted by a non-zero offset. *)
Theorem wrapped_copy_outside_world_box ts c off wb :
  off ≠ 0 ->
  (-180 <= west wb)%Q -> (east wb <= 180)%Q ->
  (-180 <= west (TilingScheme.getGeoBox ts c))%Q ->
  (east (TilingScheme.getGeoBox ts c) <= 180)%Q ->
  geoBoxesIntersect wb (getGeoBox ts c off) = false.
Proof.
  intros Hoff Hw He Hcw Hce. apply not_true_is_false. intros Hi.
  apply geoBoxesIntersect_spec in Hi as (H1 & H2 & _).
  unfold getGeoBox, shiftLongitude, west, east in *.
  cbn [southWest northEast longitude] in H1, H2.
  assert (Heps : (1 # 20000000 < MaxError)%Q) by (vm_compute; reflexivity).
  set (w := longitude (southWest (TilingScheme.getGeoBox ts c))) in *.
  set (e := longitude (northEast (TilingScheme.getGeoBox ts c))) in *.
  destruct (roundBinary64_error (360 * inject_Z off)) as [Hp1 Hn1].
  set (d := roundBinary64 (360 * inject_Z off)) in *.
  unfold unitRoundoff in *.
  destruct (Z_lt_le_dec off 0) as [Hneg | Hpos].
  - assert (Hq : (inject_Z off <= inject_Z (-1))%Q) by (rewrite <- Zle_Qle; lia).
    change (inject_Z (-1)) with (-1)%Q in Hq.
    destruct Hn1 as [_ Hd]; [lra |].
    destruct (roundBinary64_error (e + d)) as [_ Hn2]; unfold unitRoundoff in Hn2.
    destruct Hn2 as [_ Hy]; [lra |].
    destruct (roundBinary64_error (roundBinary64 (e + d) - MaxError)) as [_ Hn3]; unfold unitRoundoff in Hn3.
    destruct Hn3 as [_ Hz]; lra.
  - assert (Hq : (inject_Z 1 <= inject_Z off)%Q) by (rewrite <- Zle_Qle; lia).
    change (inject_Z 1) with 1%Q in Hq.
    destruct Hp1 as [Hd _]; [lra |].
    destruct (roundBinary64_error (w + d)) as [Hp2 _]; unfold unitRoundoff in Hp2.
    destruct Hp2 as [Hy _]; [lra |].
    destruct (roundBinary64_error (roundBinary64 (w + d) + MaxError)) as [Hp3 _]; unfold unitRoundoff in Hp3.
    destruct Hp3 as [Hz _]; lra.
Qed.

Lemma wrapped_copy_outside_world_box_witness :
  geoBoxesIntersect (boxOf (-180) (-90) 180 90)
    (getGeoBox exampleTilingScheme (mkTileKey 1 1 1) 1) = false.
Proof.
  apply (wrapped_copy_outside_world_box exampleTilingScheme (mkTileKey 1 1 1) 1
           (boxOf (-180) (-90) 180 90)).
  - discriminate.
  - discriminate.
  - discriminate.
  - discriminate.
  - discriminate.
Defined.

(** On the boundary of the test the order of the arguments matters, and a
    pair is accepted that overlaps by less than epsilon: the eastern edge of
    [a] is the double [2.0000001], which is the rounded sum of 2 and epsilon
    and lies less than epsilon east of the western edge of [b]. *)
Example geoBoxesIntersect_order_matters_on_boundary :
  let a := boxOf 0 0 (roundBinary64 (20000001 # 10000000)) 1 in
  let b := boxOf 2 0 3 1 in
  geoBoxesIntersect a b = true ∧ geoBoxesIntersect b a = false ∧
  (east a == roundBinary64 (west b + MaxError))%Q ∧
  (east a - west b < MaxError)%Q ∧
  ¬ offBoundary (roundingMargin 3) a b.
Proof.
  split; [vm_compute; reflexivity |]. split; [vm_compute; reflexivity |].
  split; [vm_compute; reflexivity |]. split; [vm_compute; reflexivity |].
  intros (_ & [H | H] & _); vm_compute in H; discriminate H.
Qed.

(** Off the boundary, a comparison with a rounded difference and the
    comparison of the rounded sum with the other edge agree. *)
Lemma rounded_comparisons_agree (x y rx ry ε m : Q) :
  (x + ε - m <= rx <= x + ε + m)%Q ->
  (y - ε - m <= ry <= y - ε + m)%Q ->
  (x + ε + m < y ∨ y + m < x + ε)%Q ->
  ((x < ry <-> rx <= y) ∧ (x <= ry <-> rx <= y))%Q.
Proof. intros Hx Hy [Ho | Ho]; repeat split; intros; lra. Qed.

(** For two boxes with edges within [R] degrees, the test does not depend on
    the order of its arguments once no southern or western edge of one box,
    moved by epsilon, comes nearer than the rounding error
    [(R + epsilon) * 2^-53] to the opposite edge of the other box. *)
Theorem geoBoxesIntersect_symmetric_off_boundary a b R :
  edgesWithin R a -> edgesWithin R b ->
  offBoundary (roundingMargin R) a b ->
  geoBoxesIntersect a b = geoBoxesIntersect b a.
Proof.
  intros Ha Hb (Owe & Oew & Osn & Ons).
  destruct (geoBoxesIntersect_sums a R Ha) as (Ae & Aw & An & As).
  destruct (geoBoxesIntersect_sums b R Hb) as (Be & Bw & Bn & Bs).
  destruct (rounded_comparisons_agree _ _ _ _ _ _ Aw Be Owe) as [E1 _].
  destruct (rounded_comparisons_agree _ _ _ _ _ _ Bw Ae Oew) as [E2 _].
  destruct (rounded_comparisons_agree _ _ _ _ _ _ As Bn Osn) as [_ E3].
  destruct (rounded_comparisons_agree _ _ _ _ _ _ Bs An Ons) as [_ E4].
  assert (Hiff : geoBoxesIntersect a b = true <-> geoBoxesIntersect b a = true).
  { split; intros Hi; apply geoBoxesIntersect_spec in Hi as (H1 & H2 & H3 & H4);
      apply geoBoxesIntersect_spec.
    - exact (conj (proj2 E2 H2) (conj (proj1 E1 H1)
               (conj (proj2 E4 H4) (proj1 E3 H3)))).
    - exact (conj (proj2 E1 H2) (conj (proj1 E2 H1)
               (conj (proj2 E3 H4) (proj1 E4 H3)))). }
  destruct (geoBoxesIntersect a b), (geoBoxesIntersect b a); try reflexivity.
  - symmetry. apply Hiff. reflexivity.
  - apply Hiff. reflexivity.
Qed.

Lemma geoBoxesIntersect_symmetric_off_boundary_witness :
  geoBoxesIntersect (boxOf 0 0 2 2) (boxOf 1 1 3 3)
  = geoBoxesIntersect (boxOf 1 1 3 3) (boxOf 0 0 2 2).
Proof.
  assert (Hm : (MaxError + roundingMargin 4 < 1)%Q) by (vm_compute; reflexivity).
  assert (Hm0 : (0 < roundingMargin 4)%Q) by (vm_compute; reflexivity).
  pose proof MaxError_pos as Heps.
  apply (geoBoxesIntersect_symmetric_off_boundary (boxOf 0 0 2 2) (boxOf 1 1 3 3) 4).
  - unfold edgesWithin. cbn. repeat split; lra.
  - unfold edgesWithin. cbn. repeat split; lra.
  - unfold offBoundary. cbn -[MaxError roundingMargin].
    repeat split; left; lra.
Defined.

(** ** Offsets *)

(** Every entry of a result has offset 0, also with tile wrapping enabled on
    a planar projection and a world box that spans several copies of the
    world: both paths of the root seeding create the one root at offset 0,
    and a sub tile takes the offset of its parent. *)
Theorem compute_offsets_are_zero {Utils : TileOffsetUtils} fuel this mapView ts ers zl ds
    r this' :
  Reachable this ->
  compute fuel this mapView ts ers zl ds = Done r this' ->
  ∀ z m κ e, tileKeyEntries r !! z = Some m -> m !! κ = Some e -> offset e = 0.
Proof.
  intros Hr Hc z m κ e Hz Hk.
  apply compute_Done_inv in Hc as (_ & _ & [[_ Hempty] | (wb & s & _ & Hrun & Hs)]).
  { rewrite Hempty, lookup_empty in Hz. discriminate. }
  rewrite Hs in Hz. apply whileLoop_reaches in Hrun as [Hreach _].
  apply (loopReaches_invariant _ _ _ _ _ _ _
           (fun s => allEntries (fun _ _ e => offset e = 0) (entries s) ∧
                     Forall (fun e => offset e = 0) (workList s))
           _ _) in Hreach.
  - destruct Hreach as [HM _]. apply (HM z m κ e Hz Hk).
  - assert (Hroots : ∀ item, item ∈ m_rootTileKeys this -> offset item = 0).
    { intros item Hitem. destruct (Reachable_roots this Hr) as [Hn | Hn];
        rewrite Hn in Hitem.
      - apply not_elem_of_nil in Hitem. destruct Hitem.
      - apply list_elem_of_singleton in Hitem. rewrite Hitem. reflexivity. }
    split; cbn [initialLoopState entries workList].
    + apply allEntries_seedRoots; [apply allEntries_createMaps |].
      intros item z' Hitem _. cbn. apply Hroots, Hitem.
    + apply Forall_forall. intros w Hw. rewrite elem_of_reverse in Hw.
      apply Hroots, Hw.
  - intros x Hx _. revert Hx. apply entries_invariant_loopBody.
    intros p c Hp _ _ _. exact Hp.
Qed.

Lemma compute_offsets_are_zero_witness :
  m_tileWrappingEnabled wrappingGlobeView = true ∧
  ∃ r this' m e,
    compute (Utils := exampleUtils) 5 wrappingGlobeView (exampleMapView None 512)
      exampleTilingScheme None [1] [levelDataSource] = Done r this' ∧
    tileKeyEntries r !! 1 = Some m ∧
    m !! 7 = Some e ∧
    offset e = 0.
Proof.
  split; [reflexivity |].
  eexists _, _, _, _.
  split; [vm_compute; reflexivity |].
  split; [vm_compute; reflexivity |].
  split; [vm_compute; reflexivity |].
  eapply (compute_offsets_are_zero (Utils := exampleUtils) 5 wrappingGlobeView
            (exampleMapView None 512) exampleTilingScheme None [1] [levelDataSource])
    with (z := 1) (κ := 7).
  - apply Reachable_updateFrustum, Reachable_new.
  - vm_compute. reflexivity.
  - vm_compute. reflexivity.
  - vm_compute. reflexivity.
Defined.
